(** * RFID listener: scan assembly, validation, deduplication and delivery

    A shallow embedding of [src/rfid_listener.py] ([RFIDListener]) and
    [src/rfid_listener_enhanced.py] ([EnhancedRFIDListener]).

    Modelling conventions:
    - a Python [str] is a [list ascii]; an [ascii] stands for the code point
      0..255 (Latin-1), and the Python character classes [str.isspace] and
      [str.isalnum] are written out exactly on that range;
    - [time.time()] values are rationals [Q]: two epoch floats within a
      factor two of each other subtract exactly, so the dedup comparison
      [current_time - self.last_scan_time < 1.0] is exact;
    - the observable actions of a handler (log records, HTTP requests,
      timer starts and cancellations, calls of [process_scan]) are a list of
      [effect]s in program order;
    - the answer of the network and of the clock at the moment a handler runs
      is an [env] argument. *)

From Stdlib Require Import Ascii String List Bool ZArith QArith Lqa Lia.
From Stdlib Require Import Strings.Byte.
Import ListNotations.

Local Open Scope Z_scope.

(** ** Python strings *)

Definition pystr := list ascii.

Definition s2l (s : string) : pystr := list_ascii_of_string s.

Definition code (c : ascii) : nat := nat_of_ascii c.

Definition in_range (lo hi n : nat) : bool := (lo <=? n)%nat && (n <=? hi)%nat.

(** [str.isspace] on one character, code points 0..255. *)
Definition py_isspace (c : ascii) : bool :=
  let n := code c in
  in_range 9 13 n || in_range 28 32 n || (n =? 133)%nat || (n =? 160)%nat.

(** [str.isalnum] on one character, code points 0..255. *)
Definition py_isalnum_char (c : ascii) : bool :=
  let n := code c in
  in_range 48 57 n || in_range 65 90 n || in_range 97 122 n
  || (n =? 170)%nat || (n =? 178)%nat || (n =? 179)%nat || (n =? 181)%nat
  || (n =? 185)%nat || (n =? 186)%nat || in_range 188 190 n
  || in_range 192 214 n || in_range 216 246 n || in_range 248 255 n.

(** [s.isalnum()]: false on the empty string. *)
Definition py_isalnum (s : pystr) : bool :=
  match s with
  | [] => false
  | _ => forallb py_isalnum_char s
  end.

(** [s.replace(' ', '')] *)
Definition remove_spaces (s : pystr) : pystr :=
  filter (fun c => negb (Ascii.eqb c " "%char)) s.

Fixpoint lstrip (s : pystr) : pystr :=
  match s with
  | [] => []
  | c :: r => if py_isspace c then lstrip r else s
  end.

Definition rstrip (s : pystr) : pystr := rev (lstrip (rev s)).

(** [s.strip()] *)
Definition strip (s : pystr) : pystr := rstrip (lstrip s).

(** Truthiness of a Python string. *)
Definition truthy (s : pystr) : bool :=
  match s with [] => false | _ => true end.

(** ** Configuration *)

Definition MIN_RFID_LENGTH : nat := 6.
Definition MAX_RFID_LENGTH : nat := 20.
Definition SCAN_TIMEOUT : Q := 2.
Definition flask_url : pystr := s2l "http://localhost:5000/scan".

(** ** Validator: [is_valid_rfid] (same body in both listeners) *)

Definition is_valid_rfid (rfid : pystr) : bool :=
  if negb (truthy rfid) then false
  else if (length rfid <? MIN_RFID_LENGTH)%nat || (MAX_RFID_LENGTH <? length rfid)%nat
  then false
  else py_isalnum (remove_spaces rfid).

(** ** Effects, environment and [process_scan] *)

Inductive level := Debug | Info | Warning | Error.

Inductive effect :=
| ELog (l : level)
| ESetLast (t : Q)                          (* self.last_scan_time = t *)
| EPost (url : pystr) (rfid : pystr) (timeout : Z)
                                            (* requests.post(url, json={'rfid': rfid}, timeout=...) *)
| EScan (candidate : pystr)                 (* self.process_scan(candidate) is called *)
| ECancel (id : nat)                        (* timer.cancel() *)
| EStart (id : nat) (deadline : Q).         (* threading.Timer(...).start() *)

(** Outcome of [requests.post]: a raised exception, or a response with a
    status code and the result of [response.json()] ([None] when it raises),
    given as the truthiness of [mapped] and of [playback_triggered]. *)
Inductive response :=
| RTransportError
| RStatus (status : Z) (body : option (bool * bool)).

Record env := mkEnv { now : Q; resp : response }.

Record listener := mkListener { last_scan_time : Q }.

Definition init_listener : listener := mkListener 0.

Definition Qltb (x y : Q) : bool := negb (Qle_bool y x).

(** The [try] block after the POST: how the response is handled. *)
Definition handle_response (r : response) : list effect :=
  match r with
  | RTransportError => [ELog Error]
  | RStatus status body =>
      if status =? 200 then
        match body with
        | None => [ELog Error]
        | Some (mapped, played) =>
            if mapped then [ELog Info; ELog (if played then Info else Warning)]
            else [ELog Info]
        end
      else [ELog Error]
  end.

(** [process_scan] (both listeners: [rfid_listener.py] 43-87,
    [rfid_listener_enhanced.py] 216-256). *)
Definition process_scan (L : listener) (e : env) (rfid_data : pystr)
  : listener * list effect :=
  let rfid := strip rfid_data in
  if negb (is_valid_rfid rfid) then (L, [ELog Warning])
  else
    let current_time := now e in
    if Qltb (current_time - last_scan_time L) 1 then (L, [ELog Debug])
    else (mkListener current_time,
          [ESetLast current_time; ELog Info; EPost flask_url rfid 5]
            ++ handle_response (resp e)).

(** ** Scan Assembler of [RFIDListener] ([rfid_listener.py] 103-131)

    [flush_scan_buffer] runs on the thread of a [threading.Timer] while the
    main loop goes on calling [handle_input_char]; no lock orders the two.
    A handler is therefore a program of statements, each statement one
    atomic step on the fields of the listener, and the threads interleave
    between statements, in particular while [process_scan] waits for the
    answer of [requests.post].

    [scan_timer] is the field [self.scan_timer], given by the id of the
    [threading.Timer] object it holds; [live] lists the timers that were
    started and have been neither cancelled nor run; [next_id] numbers the
    timer objects in the order they are created. *)

Record timer := mkTimer { t_id : nat; t_deadline : Q }.

Record assembler := mkAsm {
  a_lst : listener;
  scan_buffer : pystr;
  scan_timer : option nat;
  live : list timer;
  next_id : nat
}.

Definition init_asm : assembler := mkAsm init_listener [] None [] 0.

Definition set_lst (A : assembler) (L : listener) : assembler :=
  mkAsm L (scan_buffer A) (scan_timer A) (live A) (next_id A).
Definition set_buffer (A : assembler) (b : pystr) : assembler :=
  mkAsm (a_lst A) b (scan_timer A) (live A) (next_id A).
Definition set_timer (A : assembler) (t : option nat) : assembler :=
  mkAsm (a_lst A) (scan_buffer A) t (live A) (next_id A).
Definition set_live (A : assembler) (l : list timer) : assembler :=
  mkAsm (a_lst A) (scan_buffer A) (scan_timer A) l (next_id A).

(** [timer.cancel()]: the timer will not run; a timer whose thread already
    runs [flush_scan_buffer] is no longer in the list and is not stopped. *)
Definition cancel_timer (id : nat) (ts : list timer) : list timer :=
  filter (fun t => negb (Nat.eqb (t_id t) id)) ts.

Definition is_terminator (c : ascii) : bool :=
  Ascii.eqb c "010"%char || Ascii.eqb c "013"%char.

(** The rest of a handler: [Done], or a statement that, run at [env] on the
    current fields, gives the new fields, its effects and what follows. *)
Inductive prog :=
| Done
| Stmt (k : env -> assembler -> assembler * list effect * prog).

(** [process_scan(rfid_data)] as statements, followed by [ret]: the strip,
    the validation and [time.time()] (lines 45-53), the test on
    [self.last_scan_time] (54-56), its update (58-59) and the request with
    the handling of its answer (61-87). *)
Definition process_scan_prog (rfid_data : pystr) (ret : prog) : prog :=
  Stmt (fun e A =>
    let rfid := strip rfid_data in
    if negb (is_valid_rfid rfid) then (A, [ELog Warning], ret)
    else
      let current_time := now e in
      (A, [], Stmt (fun _ A =>
         if Qltb (current_time - last_scan_time (a_lst A)) 1 then (A, [ELog Debug], ret)
         else
           (A, [], Stmt (fun _ A =>
              (set_lst A (mkListener current_time), [ESetLast current_time; ELog Info],
               Stmt (fun e A =>
                 (A, EPost flask_url rfid 5 :: handle_response (resp e), ret)))))))).

(** [flush_scan_buffer], run by the timer thread. *)
Definition flush_scan_buffer : prog :=
  let clear_timer := Stmt (fun _ A => (set_timer A None, [], Done)) in
  Stmt (fun _ A =>                                       (* if self.scan_buffer: *)
    if truthy (scan_buffer A) then
      (A, [], Stmt (fun _ A =>                           (* logger.debug(...) *)
         (A, [ELog Debug], Stmt (fun _ A =>              (* self.process_scan(self.scan_buffer) *)
            (A, [EScan (scan_buffer A)],
             process_scan_prog (scan_buffer A)
               (Stmt (fun _ A =>                         (* self.scan_buffer = "" *)
                  (set_buffer A [], [], clear_timer))))))))
    else (A, [], clear_timer)).

(** [self.scan_timer.cancel()]: the field is read again; when another thread
    has set it to [None] meanwhile, the call raises [AttributeError], which
    the read loop of [start_listening] catches and logs (lines 157-159). *)
Definition cancel_stmt (next : prog) : prog :=
  Stmt (fun _ A =>
    match scan_timer A with
    | Some id => (set_live A (cancel_timer id (live A)), [ECancel id], next)
    | None => (A, [ELog Error], Done)
    end).

(** [handle_input_char(char)], run by the main loop. *)
Definition handle_input_char (c : ascii) : prog :=
  if is_terminator c then
    let process :=
      Stmt (fun _ A =>                                   (* if self.scan_buffer: *)
        if truthy (scan_buffer A) then
          (A, [], Stmt (fun _ A =>                       (* self.process_scan(self.scan_buffer) *)
             (A, [EScan (scan_buffer A)],
              process_scan_prog (scan_buffer A)
                (Stmt (fun _ A => (set_buffer A [], [], Done))))))  (* self.scan_buffer = "" *)
        else (A, [], Done)) in
    Stmt (fun _ A =>                                     (* if self.scan_timer: *)
      match scan_timer A with
      | Some _ =>
          (A, [], cancel_stmt
                    (Stmt (fun _ A => (set_timer A None, [], process))))  (* self.scan_timer = None *)
      | None => (A, [], process)
      end)
  else
    let start :=
      Stmt (fun _ A =>                   (* self.scan_timer = threading.Timer(SCAN_TIMEOUT, ...) *)
        (mkAsm (a_lst A) (scan_buffer A) (Some (next_id A)) (live A) (S (next_id A)), [],
         Stmt (fun e A =>                                (* self.scan_timer.start() *)
           match scan_timer A with
           | Some id =>
               (set_live A (mkTimer id (now e + SCAN_TIMEOUT)%Q :: live A),
                [EStart id (now e + SCAN_TIMEOUT)%Q], Done)
           | None => (A, [ELog Error], Done)
           end))) in
    Stmt (fun _ A =>                                     (* self.scan_buffer += char *)
      (set_buffer A (scan_buffer A ++ [c]), [], Stmt (fun _ A =>   (* if self.scan_timer: *)
         match scan_timer A with
         | Some _ => (A, [], cancel_stmt start)
         | None => (A, [], start)
         end))).

(** ** The two threads

    [m_main] is what is left of the [handle_input_char] call of the read
    loop ([Done] while it waits for the next character); [m_threads] are the
    timer threads running [flush_scan_buffer], by timer id. *)

Record machine := mkMachine {
  m_asm : assembler;
  m_main : prog;
  m_threads : list (nat * prog)
}.

Definition init_machine : machine := mkMachine init_asm Done [].

(** Who moves: the read loop gets a character from [sys.stdin.read(1)], the
    read loop runs its next statement, the timer with the given id reaches
    its deadline and its thread starts [flush_scan_buffer], or that thread
    runs its next statement. *)
Inductive sched := SRead (c : ascii) | SMain | SFire (id : nat) | SThread (id : nat).

Definition find_timer (id : nat) (ts : list timer) : option timer :=
  find (fun t => Nat.eqb (t_id t) id) ts.

Definition set_thread (id : nat) (p : prog) (ths : list (nat * prog)) : list (nat * prog) :=
  match p with
  | Done => filter (fun th => negb (Nat.eqb (fst th) id)) ths
  | Stmt _ => map (fun th => if Nat.eqb (fst th) id then (id, p) else th) ths
  end.

Definition mstep (e : env) (M : machine) (s : sched) : option (machine * list effect) :=
  match s with
  | SRead c =>
      match m_main M with
      | Done => Some (mkMachine (m_asm M) (handle_input_char c) (m_threads M), [])
      | Stmt _ => None
      end
  | SMain =>
      match m_main M with
      | Stmt k =>
          let '(A', eff, p') := k e (m_asm M) in
          Some (mkMachine A' p' (m_threads M), eff)
      | Done => None
      end
  | SFire id =>
      match find_timer id (live (m_asm M)) with
      | Some tm =>
          if Qle_bool (t_deadline tm) (now e) then
            Some (mkMachine (set_live (m_asm M) (cancel_timer id (live (m_asm M))))
                            (m_main M) (m_threads M ++ [(id, flush_scan_buffer)]), [])
          else None
      | None => None
      end
  | SThread id =>
      match find (fun th => Nat.eqb (fst th) id) (m_threads M) with
      | Some (_, Stmt k) =>
          let '(A', eff, p') := k e (m_asm M) in
          Some (mkMachine A' (m_main M) (set_thread id p' (m_threads M)), eff)
      | _ => None
      end
  end.

Fixpoint mrun (M : machine) (sch : list (env * sched)) : option (machine * list effect) :=
  match sch with
  | [] => Some (M, [])
  | (e, s) :: rest =>
      match mstep e M s with
      | Some (M1, eff1) =>
          match mrun M1 rest with
          | Some (M2, eff2) => Some (M2, eff1 ++ eff2)
          | None => None
          end
      | None => None
      end
  end.

(** ** Runs without overlap

    A handler run to completion with nothing of another thread in between;
    [es] gives the moment of each of its statements. *)

Fixpoint run_prog (p : prog) (A : assembler) (es : list env)
  : option (assembler * list effect) :=
  match p, es with
  | Done, [] => Some (A, [])
  | Stmt k, e :: es' =>
      let '(A1, eff1, p1) := k e A in
      match run_prog p1 A1 es' with
      | Some (A2, eff2) => Some (A2, eff1 ++ eff2)
      | None => None
      end
  | _, _ => None
  end.

Inductive asm_event := InChar (c : ascii) | TimerFires (id : nat).

(** One handler without overlap: a character handled by the read loop, or
    the timer [id] reaching its deadline at [e] and its flush. *)
Definition seq_step (A : assembler) (e : env) (ev : asm_event) (es : list env)
  : option (assembler * list effect) :=
  match ev with
  | InChar c => run_prog (handle_input_char c) A es
  | TimerFires id =>
      match find_timer id (live A) with
      | Some tm =>
          if Qle_bool (t_deadline tm) (now e)
          then run_prog flush_scan_buffer (set_live A (cancel_timer id (live A))) es
          else None
      | None => None
      end
  end.

(** The states reached when every handler runs to completion before the
    next one starts. *)
Inductive seq_reachable : assembler -> Prop :=
| sreach_init : seq_reachable init_asm
| sreach_step A e ev es A' effs :
    seq_reachable A -> seq_step A e ev es = Some (A', effs) -> seq_reachable A'.

(** The candidates handed to [process_scan], in order. *)
Fixpoint scans (effs : list effect) : list pystr :=
  match effs with
  | [] => []
  | EScan c :: r => c :: scans r
  | _ :: r => scans r
  end.

Fixpoint posts (effs : list effect) : list (pystr * pystr * Z) :=
  match effs with
  | [] => []
  | EPost u r t :: rest => (u, r, t) :: posts rest
  | _ :: rest => posts rest
  end.

(** ** Event decoding and the keycode table of [EnhancedRFIDListener] *)

(** [struct.calcsize('llHHI')] on a 64-bit Linux: 8 + 8 + 2 + 2 + 4. *)
Definition event_size : nat := 24.

Fixpoint le_value (bs : list byte) : Z :=
  match bs with
  | [] => 0
  | b :: r => Z.of_N (Byte.to_N b) + 256 * le_value r
  end.

Definition field (off len : nat) (bs : list byte) : Z :=
  le_value (firstn len (skipn off bs)).

Definition signed64 (v : Z) : Z := if v <? 2 ^ 63 then v else v - 2 ^ 64.

Record input_event := mkEvent {
  ev_sec : Z; ev_usec : Z; ev_type : Z; ev_code : Z; ev_value : Z
}.

(** [struct.unpack('llHHI', event_data)], native little-endian layout. *)
Definition unpack_event (bs : list byte) : input_event :=
  mkEvent (signed64 (field 0 8 bs)) (signed64 (field 8 8 bs))
          (field 16 2 bs) (field 18 2 bs) (field 20 4 bs).

Definition keymap : list (Z * ascii) :=
  [(2, "1"); (3, "2"); (4, "3"); (5, "4"); (6, "5");
   (7, "6"); (8, "7"); (9, "8"); (10, "9"); (11, "0");
   (16, "q"); (17, "w"); (18, "e"); (19, "r"); (20, "t");
   (21, "y"); (22, "u"); (23, "i"); (24, "o"); (25, "p");
   (30, "a"); (31, "s"); (32, "d"); (33, "f"); (34, "g");
   (35, "h"); (36, "j"); (37, "k"); (38, "l");
   (44, "z"); (45, "x"); (46, "c"); (47, "v"); (48, "b");
   (49, "n"); (50, "m");
   (28, "010")]%char.

(** [keycode_to_char]: [keymap.get(keycode, '')]. *)
Definition keycode_to_char (keycode : Z) : pystr :=
  match find (fun p => fst p =? keycode) keymap with
  | Some (_, c) => [c]
  | None => []
  end.

(** ** Read loops of [EnhancedRFIDListener]

    The local [scan_buffer] of the loop and the listener state. *)

Record enh := mkEnh { e_lst : listener; e_buf : pystr }.

(** The terminator branch shared by both loops:
    [if scan_buffer.strip(): self.process_scan(scan_buffer.strip()); scan_buffer = '']. *)
Definition enh_terminate (e : env) (S : enh) : enh * list effect :=
  let s := strip (e_buf S) in
  if truthy s then
    let '(L', eff) := process_scan (e_lst S) e s in
    (mkEnh L' [], EScan s :: eff)
  else (S, []).

(** One iteration of [read_rfid_from_stdin]; [rd] is [sys.stdin.read(1)]
    ([None] for the empty string, after which the loop sleeps). *)
Definition stdin_step (e : env) (S : enh) (rd : option ascii) : enh * list effect :=
  match rd with
  | None => (S, [])
  | Some c =>
      if Ascii.eqb c "010"%char || Ascii.eqb c "013"%char then enh_terminate e S
      else (mkEnh (e_lst S) (e_buf S ++ [c]), [])
  end.

(** One iteration of [read_rfid_from_device]; [rd] is [device.read(event_size)]
    ([None] when it raises: the error is logged and the loop sleeps). *)
Definition device_step (e : env) (S : enh) (rd : option (list byte)) : enh * list effect :=
  match rd with
  | None => (S, [ELog Error])
  | Some event_data =>
      if Nat.eqb (length event_data) event_size then
        let ev := unpack_event event_data in
        if (ev_type ev =? 1) && (ev_value ev =? 1) then
          let ch := keycode_to_char (ev_code ev) in
          if truthy ch then
            if list_eq_dec ascii_dec ch ["010"%char] then enh_terminate e S
            else (mkEnh (e_lst S) (e_buf S ++ ch), [])
          else (S, [])
        else (S, [])
      else (S, [])
  end.

Fixpoint run_loop {I : Type} (step : env -> enh -> I -> enh * list effect)
    (S : enh) (ins : list (env * I)) : enh * list effect :=
  match ins with
  | [] => (S, [])
  | (e, i) :: rest =>
      let '(S1, eff1) := step e S i in
      let '(S2, eff2) := run_loop step S1 rest in
      (S2, eff1 ++ eff2)
  end.

(** The character carried by a complete key-press record, if any. *)
Definition record_char (r : list byte) : option ascii :=
  if Nat.eqb (length r) event_size then
    let ev := unpack_event r in
    if (ev_type ev =? 1) && (ev_value ev =? 1) then
      match keycode_to_char (ev_code ev) with
      | [c] => Some c
      | _ => None
      end
    else None
  else None.

(** A byte from its value modulo 256, to build concrete records. *)
Definition byte_of (n : Z) : byte :=
  match Byte.of_N (Z.to_N (n mod 256)) with Some b => b | None => x00 end.

Definition le_bytes (n : nat) (v : Z) : list byte :=
  map (fun i => byte_of (Z.shiftr v (8 * Z.of_nat i))) (seq 0 n).

Definition mk_record (sec usec ty cd val : Z) : list byte :=
  le_bytes 8 sec ++ le_bytes 8 usec ++ le_bytes 2 ty ++ le_bytes 2 cd ++ le_bytes 4 val.

(** ** Device Locator, liveness probe and strategy selection
    ([rfid_listener_enhanced.py] 55-131 and 265-284) *)

(** A Python call that returns a value or raises out of the caller. *)
Inductive outcome (A : Type) := Ret (a : A) | Raise.
Arguments Ret {A} a.
Arguments Raise {A}.

(** What the locator sees of the file system. [registry] is the content of
    [/proc/bus/input/devices] ([None] when reading it raises, which the code
    catches); [by_id_listing] is [os.listdir('/dev/input/by-id')] ([None]
    when it raises, which the code does not catch). *)
Record sysfs := mkSys {
  registry : option pystr;
  by_id_exists : bool;
  by_id_listing : option (list pystr);
  path_exists : pystr -> bool;
  realpath : pystr -> pystr
}.

Definition RFID_READER_PATTERNS : list pystr :=
  map s2l ["OKE.*Electron"; "Chic.*Technology"; "05fe:1010"; "RFID"; "Card.*Reader"]%string.

(** [content.split('\n\n')] *)
Fixpoint split_blocks_aux (s acc : pystr) : list pystr :=
  match s with
  | [] => [rev acc]
  | c :: r =>
      match r with
      | d :: r' =>
          if Ascii.eqb c "010"%char && Ascii.eqb d "010"%char
          then rev acc :: split_blocks_aux r' []
          else split_blocks_aux r (c :: acc)
      | [] => split_blocks_aux r (c :: acc)
      end
  end.

Definition split_blocks (s : pystr) : list pystr := split_blocks_aux s [].

Fixpoint first_some {A B : Type} (f : A -> option B) (l : list A) : option B :=
  match l with
  | [] => None
  | x :: r => match f x with Some y => Some y | None => first_some f r end
  end.

Section Locator.

(** The regular-expression engine: [re.search(pattern, s, re.IGNORECASE)]
    succeeds, and [re.findall(r'H: Handlers=.*?(event\d+)', block)]. *)
Variable re_search : pystr -> pystr -> bool.
Variable find_handlers : pystr -> list pystr.

(** The inner [for pattern in RFID_READER_PATTERNS] loop of method 1. *)
Definition block_device (fs : sysfs) (device_block : pystr) : option pystr :=
  first_some
    (fun pattern =>
       if re_search pattern device_block then
         match find_handlers device_block with
         | event_device :: _ =>
             let device_path := s2l "/dev/input/" ++ event_device in
             if path_exists fs device_path then Some device_path else None
         | [] => None
         end
       else None)
    RFID_READER_PATTERNS.

(** The inner loop of method 2. *)
Definition link_device (fs : sysfs) (device_link : pystr) : option pystr :=
  first_some
    (fun pattern =>
       if re_search pattern device_link then
         let device_path := s2l "/dev/input/by-id/" ++ device_link in
         if path_exists fs device_path then Some (realpath fs device_path) else None
       else None)
    RFID_READER_PATTERNS.

(** [find_rfid_device]; method 3 only logs the existing
    [/dev/input/event0..19] and returns [None]. *)
Definition find_rfid_device (fs : sysfs) : outcome (option pystr) :=
  let method1 :=
    match registry fs with
    | Some content => first_some (block_device fs) (split_blocks content)
    | None => None
    end in
  match method1 with
  | Some p => Ret (Some p)
  | None =>
      if by_id_exists fs then
        match by_id_listing fs with
        | None => Raise
        | Some links =>
            match first_some (link_device fs) links with
            | Some p => Ret (Some p)
            | None => Ret None
            end
        end
      else Ret None
  end.

End Locator.

(** What [test_device_input] meets: the result of [open(device_path, 'rb')],
    whether [select] reported the device ready within the timeout, and the
    bytes returned by [device.read(24)]. *)
Inductive open_result := OpenOk | OpenPermissionError | OpenOtherError.

Record probe_io := mkProbe { p_open : open_result; p_ready : bool; p_data : list byte }.

(** Python return values of [test_device_input]: [True], [False] or the
    implicit [None]. *)
Inductive pyval := PTrue | PFalse | PNone.

Definition test_device_input (io : probe_io) : pyval * list effect :=
  match p_open io with
  | OpenPermissionError => (PFalse, [ELog Info; ELog Error; ELog Info; ELog Info])
  | OpenOtherError => (PFalse, [ELog Info; ELog Error])
  | OpenOk =>
      if p_ready io then
        match p_data io with
        | [] => (PNone, [ELog Info; ELog Info])
        | _ => (PTrue, [ELog Info; ELog Info; ELog Info])
        end
      else (PFalse, [ELog Info; ELog Info; ELog Info])
  end.

Inductive strategy := DeviceRead (device_path : pystr) | StdinRead.

(** [start_listening] up to the choice of read loop: the strategy and the
    paths handed to the probe. [probe p] is what the probe meets on [p]. *)
Definition start_listening (re_search : pystr -> pystr -> bool)
    (find_handlers : pystr -> list pystr) (fs : sysfs)
    (probe : pystr -> probe_io) : outcome (strategy * list pystr) :=
  match find_rfid_device re_search find_handlers fs with
  | Raise => Raise
  | Ret device_path =>
      match device_path with
      | Some p =>
          if truthy p then
            match fst (test_device_input (probe p)) with
            | PTrue => Ret (DeviceRead p, [p])
            | _ => Ret (StdinRead, [p])
            end
          else Ret (StdinRead, [])
      | None => Ret (StdinRead, [])
      end
  end.

(** ** Runs, invariants and concrete inputs *)

Fixpoint set_times (effs : list effect) : list Q :=
  match effs with
  | [] => []
  | ESetLast t :: r => t :: set_times r
  | _ :: r => set_times r
  end.

(** Consecutive elements at least one second apart. *)
Fixpoint spaced (l : list Q) : Prop :=
  match l with
  | a :: ((b :: _) as r) => (1 <= b - a)%Q /\ spaced r
  | _ => True
  end.

(** [process_scan] run over a sequence of candidates, in order. *)
Fixpoint scan_run (L : listener) (evs : list (env * pystr)) : listener * list effect :=
  match evs with
  | [] => (L, [])
  | (e, d) :: rest =>
      let '(L1, eff1) := process_scan L e d in
      let '(L2, eff2) := scan_run L1 rest in
      (L2, eff1 ++ eff2)
  end.

(** Between handlers of a run without overlap: the only outstanding timer
    is the one in [self.scan_timer], and a timer is set only while the buffer
    is non-empty. *)
Definition asm_inv (A : assembler) : Prop :=
  match scan_timer A with
  | Some id => (exists d, live A = [mkTimer id d]) /\ scan_buffer A <> []
  | None => live A = []
  end.

Definition timer_free (effs : list effect) : Prop :=
  forall x, In x effs -> match x with ECancel _ | EStart _ _ => False | _ => True end.

(** Same fields but [self.last_scan_time]. *)
Definition same_but_lst (A B : assembler) : Prop :=
  scan_buffer B = scan_buffer A /\ scan_timer B = scan_timer A
  /\ live B = live A /\ next_id B = next_id A.

(** Effects that hand nothing to [process_scan] and start or cancel no timer. *)
Definition quiet (effs : list effect) : Prop := scans effs = [] /\ timer_free effs.

(** Concrete inputs. *)

Definition w_env (t : Q) : env := mkEnv t RTransportError.

Definition w_sys : sysfs :=
  mkSys (Some (s2l "I: Bus=0011
N: Name=AT keyboard
H: Handlers=kbd event0")) false None (fun _ => true) (fun p => p).

(** Schedules of the two threads: the read loop gets [c] at [t] and runs [n]
    statements of [handle_input_char]; the timer [id] runs at [t] and its
    thread runs [n] statements; the thread of timer [id] runs [n] more. *)
Definition read_at (t : Q) (c : ascii) (n : nat) : list (env * sched) :=
  (w_env t, SRead c) :: repeat (w_env t, SMain) n.

Definition fire_at (t : Q) (id : nat) (n : nat) : list (env * sched) :=
  (w_env t, SFire id) :: repeat (w_env t, SThread id) n.

Definition thread_at (t : Q) (id : nat) (n : nat) : list (env * sched) :=
  repeat (w_env t, SThread id) n.

(** The characters of [s] typed at [t] with no timer outstanding, each handled
    to completion: the first takes 4 statements, the others 5 (with the
    cancel of the previous timer). *)
Definition type_at (t : Q) (s : pystr) : list (env * sched) :=
  match s with
  | [] => []
  | c :: r => read_at t c 4 ++ flat_map (fun c => read_at t c 5) r
  end.

(** "123456" typed at time 0: timers 0 to 5 are started and all but timer 5
    cancelled. *)
Definition type6 : list (env * sched) := type_at 0 (s2l "123456").

(** Timer 5 runs at 2 s and its thread stops in [process_scan] before the
    POST; a newline read at 3.5 s is handled to completion; then the thread
    ends. *)
Definition c3_sched : list (env * sched) :=
  type6 ++ fire_at 2 5 6 ++ read_at (7 # 2) "010" 10 ++ thread_at (7 # 2) 5 3.

(** Timer 5 runs at 2 s and its thread stops before the POST; "7" is handled
    at 2.5 s (timer 6 started); the thread ends, setting [scan_buffer] to
    empty and [scan_timer] to [None]; "8" is handled at 3 s (timer 7 started,
    timer 6 not cancelled). *)
Definition c4_sched : list (env * sched) :=
  type6 ++ fire_at 2 5 6 ++ read_at (5 # 2) "7" 5 ++ thread_at (5 # 2) 5 3
  ++ read_at 3 "8" 4.

(** ** More of the listeners *)

(** ['\n\n'.join(blocks)], the inverse of [split_blocks]. *)
Fixpoint join_blocks (l : list pystr) : pystr :=
  match l with
  | [] => []
  | x :: r =>
      x ++ match r with
           | [] => []
           | _ :: _ => "010"%char :: "010"%char :: join_blocks r
           end
  end.

(** A character the keycode table can put in the buffer: a digit or a
    lower-case ASCII letter. *)
Definition digit_or_lower (c : ascii) : bool :=
  in_range 48 57 (code c) || in_range 97 122 (code c).

(** ** The Flask application ([app.py])

    The table [rfid_map] as its rows in insertion order; [CURRENT_TIMESTAMP]
    is the time [now] of the request. *)

Definition pystr_eqb (a b : pystr) : bool :=
  if list_eq_dec ascii_dec a b then true else false.

Record row := mkRow {
  r_rfid : pystr;
  r_music_dir : pystr;
  r_album_title : option pystr;
  r_artist : option pystr;
  r_cover_path : option pystr;
  r_created_at : Q;
  r_last_played : option Q
}.

Definition table := list row.

(** [DatabaseManager.get_mapping]: [SELECT * FROM rfid_map WHERE rfid = ?]. *)
Definition get_mapping (db : table) (rfid : pystr) : option row :=
  find (fun r => pystr_eqb (r_rfid r) rfid) db.

(** [DatabaseManager.create_mapping]: the [INSERT] raises
    [sqlite3.IntegrityError] when the primary key [rfid] is taken. *)
Definition create_mapping (now : Q) (db : table) (rfid music_dir : pystr)
    (album_title artist cover_path : option pystr) : outcome table :=
  match get_mapping db rfid with
  | Some _ => Raise
  | None => Ret (db ++ [mkRow rfid music_dir album_title artist cover_path now None])
  end.

Definition set_fields (music_dir album_title artist cover_path : option pystr) (r : row) : row :=
  mkRow (r_rfid r)
        (match music_dir with Some v => v | None => r_music_dir r end)
        (match album_title with Some v => Some v | None => r_album_title r end)
        (match artist with Some v => Some v | None => r_artist r end)
        (match cover_path with Some v => Some v | None => r_cover_path r end)
        (r_created_at r) (r_last_played r).

(** [DatabaseManager.update_mapping]: only the arguments that are not
    [None] are set, and nothing is run when all of them are [None]. *)
Definition update_mapping (db : table) (rfid : pystr)
    (music_dir album_title artist cover_path : option pystr) : table :=
  match music_dir, album_title, artist, cover_path with
  | None, None, None, None => db
  | _, _, _, _ =>
      map (fun r => if pystr_eqb (r_rfid r) rfid
                    then set_fields music_dir album_title artist cover_path r else r) db
  end.

(** [DatabaseManager.delete_mapping] *)
Definition delete_mapping (db : table) (rfid : pystr) : table :=
  filter (fun r => negb (pystr_eqb (r_rfid r) rfid)) db.

(** [DatabaseManager.update_last_played] *)
Definition update_last_played (now : Q) (db : table) (rfid : pystr) : table :=
  map (fun r => if pystr_eqb (r_rfid r) rfid
                then mkRow (r_rfid r) (r_music_dir r) (r_album_title r) (r_artist r)
                           (r_cover_path r) (r_created_at r) (Some now)
                else r) db.

(** The primary keys of the table. *)
Definition keys (t : table) : list pystr := map r_rfid t.

(** The module-level state: the database and [rfid_queue]. *)
Record app_state := mkApp { db : table; rfid_queue : list pystr }.

(** [f"http://{MACOS_HOST}:{MACOS_PORT}/play"] with the default settings. *)
Definition macos_play_url : pystr := s2l "http://192.168.1.100:5001/play".

(** [trigger_playback]: one POST of [{"rfid": rfid}]; [True] exactly when
    the host answers 200 (an exception is printed and gives [False]). *)
Definition trigger_playback (pb : response) (rfid : pystr) : bool * list effect :=
  (match pb with RTransportError => false | RStatus st _ => st =? 200 end,
   [EPost macos_play_url rfid 5]).

(** The value under ['rfid'] in the request body: a string, or a JSON value
    without [strip] (whose call raises). *)
Inductive jval := JStr (s : pystr) | JOther.

(** How [handle_scan] meets [data = request.get_json()]: falsy, truthy
    without ['rfid'], [data['rfid']], or a body on which the test
    ['rfid' not in data] or the subscript [data['rfid']] raises [TypeError]. *)
Inductive scan_body := BFalsy | BNoRfid | BRfid (v : jval) | BTypeError.

(** A parsed JSON document; an object as its members in the order of the
    text. *)
Inductive json :=
| JsNull
| JsBool (b : bool)
| JsNum (q : Q)
| JsStr (s : pystr)
| JsArr (l : list json)
| JsObj (kvs : list (pystr * json)).

(** [not data] is false for [None], [False], [0], an empty string, list or
    dict. *)
Definition json_truthy (data : json) : bool :=
  match data with
  | JsNull => false
  | JsBool b => b
  | JsNum q => negb (Qeq_bool q 0)
  | JsStr s => truthy s
  | JsArr l => match l with [] => false | _ => true end
  | JsObj kvs => match kvs with [] => false | _ => true end
  end.

Definition rfid_key : pystr := s2l "rfid".

Fixpoint is_prefix (p s : pystr) : bool :=
  match p, s with
  | [], _ => true
  | x :: p', y :: s' => Ascii.eqb x y && is_prefix p' s'
  | _ :: _, [] => false
  end.

(** [needle in hay] on two strings. *)
Fixpoint is_substring (needle hay : pystr) : bool :=
  is_prefix needle hay || match hay with [] => false | _ :: r => is_substring needle r end.

(** ['rfid' in data]: a key of a dict, an element of a list, a substring of a
    string; [None] when it raises [TypeError] (a number, a bool or [None]). *)
Definition rfid_in (data : json) : option bool :=
  match data with
  | JsObj kvs => Some (existsb (fun kv => pystr_eqb (fst kv) rfid_key) kvs)
  | JsArr l => Some (existsb (fun v => match v with JsStr s => pystr_eqb s rfid_key | _ => false end) l)
  | JsStr s => Some (is_substring rfid_key s)
  | _ => None
  end.

(** [data['rfid']]: the last member of that name of an object (as [json.loads]
    keeps it); [None] when it raises [TypeError] (a list or a string indexed
    by a string). *)
Definition getitem_rfid (data : json) : option json :=
  match data with
  | JsObj kvs => option_map snd (find (fun kv => pystr_eqb (fst kv) rfid_key) (rev kvs))
  | _ => None
  end.

Definition jval_of (v : json) : jval :=
  match v with JsStr s => JStr s | _ => JOther end.

(** Lines 176-180 of [handle_scan] up to the call of [strip]. *)
Definition scan_body_of (data : json) : scan_body :=
  if negb (json_truthy data) then BFalsy
  else
    match rfid_in data with
    | None => BTypeError
    | Some false => BNoRfid
    | Some true =>
        match getitem_rfid data with
        | Some v => BRfid (jval_of v)
        | None => BTypeError
        end
    end.

Inductive scan_reply :=
| SR400
| SRMapped (rfid music_dir : pystr) (album_title artist : option pystr) (playback_triggered : bool)
| SRUnmapped (rfid : pystr).

(** [handle_scan] ([app.py] 173-210); [pb] is what [trigger_playback] meets. *)
Definition handle_scan (now : Q) (pb : response) (A : app_state) (body : scan_body)
  : outcome (app_state * scan_reply * list effect) :=
  match body with
  | BFalsy | BNoRfid => Ret (A, SR400, [])
  | BTypeError | BRfid JOther => Raise
  | BRfid (JStr s) =>
      let rfid := strip s in
      if negb (truthy rfid) then Ret (A, SR400, [])
      else
        match get_mapping (db A) rfid with
        | Some mapping =>
            let db' := update_last_played now (db A) rfid in
            let '(success, eff) := trigger_playback pb rfid in
            Ret (mkApp db' (rfid_queue A),
                 SRMapped rfid (r_music_dir mapping) (r_album_title mapping) (r_artist mapping)
                          success,
                 eff)
        | None => Ret (mkApp (db A) (rfid_queue A ++ [rfid]), SRUnmapped rfid, [])
        end
  end.

(** What the listener's [requests.post] gets back from [handle_scan]: the
    status and, for a JSON body, the truthiness of ['mapped'] and of
    ['playback_triggered']; an exception in the view is a 500 page. *)
Definition scan_http (o : outcome (app_state * scan_reply * list effect)) : response :=
  match o with
  | Raise => RStatus 500 None
  | Ret (_, SR400, _) => RStatus 400 (Some (false, false))
  | Ret (_, SRMapped _ _ _ _ played, _) => RStatus 200 (Some (true, played))
  | Ret (_, SRUnmapped _, _) => RStatus 200 (Some (false, false))
  end.

Inductive flash_category := FSuccess | FError.
Inductive redirect := ToIndex | ToAssign | ToEdit (rfid : pystr).

(** [request.form.get(key, '')] *)
Definition form_default (v : option pystr) : pystr :=
  match v with Some s => s | None => [] end.

(** The POST branch of [assign] ([app.py] 235-260). *)
Definition assign_post (now : Q) (A : app_state) (rfid music_dir album_title artist : option pystr)
  : app_state * flash_category * redirect :=
  let album := form_default album_title in
  let art := form_default artist in
  match rfid, music_dir with
  | Some r, Some m =>
      if truthy r && truthy m then
        match get_mapping (db A) r with
        | Some _ => (A, FError, ToAssign)
        | None =>
            match create_mapping now (db A) r m (Some album) (Some art) None with
            | Ret db' => (mkApp db' (rfid_queue A), FSuccess, ToIndex)
            | Raise => (A, FError, ToAssign)
            end
        end
      else (A, FError, ToAssign)
  | _, _ => (A, FError, ToAssign)
  end.

(** The pending identifier of the GET branch of [assign]: the [rfid]
    parameter, or else the oldest queued scan, taken off the queue. *)
Definition assign_get_pending (A : app_state) (param : option pystr) : app_state * option pystr :=
  let given := match param with Some p => truthy p | None => false end in
  if given then (A, param)
  else match rfid_queue A with
       | [] => (A, param)
       | q :: rest => (mkApp (db A) rest, Some q)
       end.

(** The POST branch of [edit] ([app.py] 262-284). *)
Definition edit_post (A : app_state) (rfid : pystr) (album_title artist : option pystr)
  : app_state * flash_category * redirect :=
  match get_mapping (db A) rfid with
  | None => (A, FError, ToIndex)
  | Some _ =>
      (mkApp (update_mapping (db A) rfid None (Some (form_default album_title))
                             (Some (form_default artist)) None)
             (rfid_queue A), FSuccess, ToIndex)
  end.

(** [unassign] ([app.py] 286-300). *)
Definition unassign (A : app_state) (rfid : pystr) : app_state * flash_category * redirect :=
  match get_mapping (db A) rfid with
  | Some _ => (mkApp (delete_mapping (db A) rfid) (rfid_queue A), FSuccess, ToIndex)
  | None => (A, FError, ToIndex)
  end.

(** ** The macOS playback host ([macos_playback_host.py]) *)

Definition MUSIC_MOUNT_PATH : pystr := s2l "/Volumes/music".
Definition MPV_COMMAND : pystr := s2l "mpv".

Definition slash : ascii := "/"%char.

(** [posixpath.join(a, b)] *)
Definition os_path_join (a b : pystr) : pystr :=
  match b with
  | c :: _ => if Ascii.eqb c slash then b
              else if negb (truthy a) || Ascii.eqb (last a " "%char) slash then a ++ b
              else a ++ slash :: b
  | [] => if negb (truthy a) || Ascii.eqb (last a " "%char) slash then a ++ b
          else a ++ [slash]
  end.

(** What the host meets: [os.path.exists], [os.path.isdir], [glob.glob], and
    for the current [mpv] process whether [poll()] is [None] and whether
    [wait(timeout=5)] returns in time. *)
Record host_io := mkHost {
  h_exists : pystr -> bool;
  h_isdir : pystr -> bool;
  h_glob : pystr -> list pystr;
  h_running : bool;
  h_exits : bool
}.

(** [MusicPlayer]; the playback thread sets its fields later, on its own. *)
Record player := mkPlayer { current_process : option nat; is_playing : bool }.

Inductive heffect :=
| HTerminate                    (* current_process.terminate() *)
| HKill                         (* current_process.kill() *)
| HStartMpv (argv : list pystr). (* the playback thread is started with mpv_args *)

(** [MusicPlayer.stop_current_playback] *)
Definition stop_current_playback (io : host_io) (P : player) : player * list heffect :=
  match current_process P with
  | Some _ =>
      if h_running io
      then (mkPlayer (current_process P) false,
            HTerminate :: (if h_exits io then [] else [HKill]))
      else (mkPlayer (current_process P) false, [])
  | None => (mkPlayer None false, [])
  end.

Definition mpv_options : list pystr :=
  map s2l ["--no-video"; "--shuffle"; "--loop-playlist=inf"; "--volume=80"]%string.

(** [MusicPlayer.play_directory] *)
Definition play_directory (io : host_io) (P : player) (music_dir : pystr)
  : player * bool * list heffect :=
  let '(P1, eff1) := stop_current_playback io P in
  let mp3_files := h_glob io (os_path_join music_dir (s2l "*.mp3")) in
  match mp3_files with
  | [] => (P1, false, eff1)
  | _ :: _ => (P1, true, eff1 ++ [HStartMpv (MPV_COMMAND :: mpv_options ++ mp3_files)])
  end.

(** The JSON body of a [/play] request: falsy, or an object whose ['rfid']
    and ['music_dir'] are strings or missing. *)
Inductive play_body := PNoData | PObj (rfid music_dir : option pystr).

(** The body [{"rfid": rfid}] that [trigger_playback] sends. *)
Definition trigger_body (rfid : pystr) : play_body := PObj (Some rfid) None.

(** [full_path] in [play_music] ([macos_playback_host.py] 116-122). *)
Definition play_path (rfid : pystr) (music_dir : option pystr) : pystr :=
  match music_dir with
  | Some m => if truthy m then m else os_path_join MUSIC_MOUNT_PATH rfid
  | None => os_path_join MUSIC_MOUNT_PATH rfid
  end.

(** [play_music] ([macos_playback_host.py] 102-155): the new player state,
    the status code and what was done to the players. *)
Definition play_music (io : host_io) (P : player) (body : play_body)
  : player * Z * list heffect :=
  match body with
  | PNoData => (P, 400, [])
  | PObj rfid music_dir =>
      match rfid with
      | None => (P, 400, [])
      | Some r =>
          if negb (truthy r) then (P, 400, [])
          else
            let full_path := play_path r music_dir in
            if negb (h_exists io full_path) then (P, 404, [])
            else if negb (h_isdir io full_path) then (P, 400, [])
            else
              let '(P', success, eff) := play_directory io P full_path in
              (P', if success then 200 else 500, eff)
      end
  end.

(** ** Helper lemmas *)

Lemma set_times_app a b : set_times (a ++ b) = set_times a ++ set_times b.
Proof. induction a as [|x a IH]; [reflexivity|destruct x; simpl; rewrite ?IH; reflexivity]. Qed.

Lemma posts_app a b : posts (a ++ b) = posts a ++ posts b.
Proof. induction a as [|x a IH]; [reflexivity|destruct x; simpl; rewrite ?IH; reflexivity]. Qed.

Lemma scans_app a b : scans (a ++ b) = scans a ++ scans b.
Proof. induction a as [|x a IH]; [reflexivity|destruct x; simpl; rewrite ?IH; reflexivity]. Qed.

Lemma handle_response_quiet r :
  set_times (handle_response r) = [] /\ posts (handle_response r) = []
  /\ scans (handle_response r) = [].
Proof.
  destruct r as [|st [[[] []]|]]; simpl; try destruct (st =? 200); simpl; auto.
Qed.

Lemma py_isalnum_spec s :
  py_isalnum s = true <-> s <> [] /\ forallb py_isalnum_char s = true.
Proof.
  destruct s as [|c r]; simpl.
  - split; [discriminate | intros [H _]; congruence].
  - split; [intros H; split; [discriminate | exact H] | intros [_ H]; exact H].
Qed.

(** The two outcomes of [process_scan]. *)
Lemma process_scan_cases L e d :
  (is_valid_rfid (strip d) = false /\ process_scan L e d = (L, [ELog Warning]))
  \/ (is_valid_rfid (strip d) = true /\ (now e - last_scan_time L < 1)%Q
      /\ process_scan L e d = (L, [ELog Debug]))
  \/ (is_valid_rfid (strip d) = true /\ (1 <= now e - last_scan_time L)%Q
      /\ process_scan L e d =
         (mkListener (now e),
          [ESetLast (now e); ELog Info; EPost flask_url (strip d) 5]
            ++ handle_response (resp e))).
Proof.
  unfold process_scan.
  destruct (is_valid_rfid (strip d)) eqn:V; simpl.
  - unfold Qltb. destruct (Qle_bool 1 (now e - last_scan_time L)) eqn:Q; simpl.
    + right; right. apply Qle_bool_iff in Q. auto.
    + right; left. split; [reflexivity|split; [|reflexivity]].
      apply Qnot_le_lt. intro H. apply Qle_bool_iff in H. congruence.
  - left. auto.
Qed.

Lemma scan_run_spaced L evs :
  spaced (last_scan_time L :: set_times (snd (scan_run L evs))).
Proof.
  revert L; induction evs as [|[e d] evs IH]; intro L; simpl; [exact I|].
  destruct (process_scan_cases L e d) as [[_ H]|[[_ [_ H]]|[_ [Hge H]]]];
    rewrite H; destruct (scan_run _ evs) as [L2 eff2] eqn:R; simpl.
  - specialize (IH L). rewrite R in IH. exact IH.
  - specialize (IH L). rewrite R in IH. exact IH.
  - rewrite set_times_app. destruct (handle_response_quiet (resp e)) as [-> _]. simpl.
    split; [exact Hge|]. specialize (IH (mkListener (now e))). rewrite R in IH. exact IH.
Qed.

Lemma spaced_tail a l : spaced (a :: l) -> spaced l.
Proof. destruct l; simpl; tauto. Qed.

Lemma is_valid_rfid_spec s :
  is_valid_rfid s = true <->
  ((MIN_RFID_LENGTH <= length s <= MAX_RFID_LENGTH)%nat
   /\ remove_spaces s <> [] /\ forallb py_isalnum_char (remove_spaces s) = true).
Proof.
  unfold is_valid_rfid. rewrite <- py_isalnum_spec.
  destruct s as [|c r]; simpl.
  - split; [discriminate | intros [H _]; unfold MIN_RFID_LENGTH in H; lia].
  - destruct (Nat.ltb (S (length r)) MIN_RFID_LENGTH) eqn:E1;
      [|destruct (Nat.ltb MAX_RFID_LENGTH (S (length r))) eqn:E2]; simpl.
    + apply Nat.ltb_lt in E1. split; [discriminate | intros [H _]; lia].
    + apply Nat.ltb_lt in E2. split; [discriminate | intros [H _]; lia].
    + apply Nat.ltb_ge in E1. apply Nat.ltb_ge in E2.
      split; [intros H; split; [lia | exact H] | intros [_ H]; exact H].
Qed.

Lemma lstrip_head s c r : lstrip s = c :: r -> py_isspace c = false.
Proof.
  induction s as [|x s IH]; simpl; [discriminate|].
  destruct (py_isspace x) eqn:E; [exact IH|]. intro H; inversion H; subst; exact E.
Qed.

Lemma lstrip_suffix s : exists pre, s = pre ++ lstrip s.
Proof.
  induction s as [|x s [pre IH]]; simpl; [exists []; reflexivity|].
  destruct (py_isspace x); [exists (x :: pre); simpl; f_equal; exact IH | exists []; reflexivity].
Qed.

Lemma rstrip_prefix x : exists suf, x = rstrip x ++ suf.
Proof.
  destruct (lstrip_suffix (rev x)) as [pre H]. exists (rev pre).
  unfold rstrip. rewrite <- rev_app_distr, <- H, rev_involutive. reflexivity.
Qed.

Lemma strip_head s c r : strip s = c :: r -> py_isspace c = false.
Proof.
  intro H. destruct (rstrip_prefix (lstrip s)) as [suf Hs].
  unfold strip in H. rewrite H in Hs. simpl in Hs. exact (lstrip_head _ _ _ Hs).
Qed.

Lemma strip_last s c r : strip s = r ++ [c] -> py_isspace c = false.
Proof.
  unfold strip, rstrip. intro H.
  apply (f_equal (@rev ascii)) in H. rewrite rev_involutive, rev_app_distr in H.
  simpl in H. exact (lstrip_head _ _ _ H).
Qed.

(** ** C1: the validator *)

(** C1 (as stated, refuted): the validator does not accept every string of
    length 6..20 whose characters other than spaces are all alphanumeric: six
    spaces satisfy that predicate vacuously, and [is_valid_rfid] rejects them
    because [''.isalnum()] is false. *)
Lemma C1_counterexample :
  ~ (forall s, is_valid_rfid s = true <->
       ((6 <= length s <= 20)%nat /\ forallb py_isalnum_char (remove_spaces s) = true)).
Proof.
  intro H. specialize (H (s2l "      ")).
  assert (Hp : ((6 <= length (s2l "      ") <= 20)%nat
                /\ forallb py_isalnum_char (remove_spaces (s2l "      ")) = true))
    by (split; [simpl; lia | reflexivity]).
  apply H in Hp. vm_compute in Hp. discriminate.
Qed.

(** C1 (amended): [is_valid_rfid s] holds iff the length of [s] lies in
    [6, 20] and [s] without its spaces is non-empty and all alphanumeric;
    [process_scan] rejects every candidate whose stripped form fails this,
    with a warning and no POST. *)
Theorem C1_validator_amended :
  (forall s, is_valid_rfid s = true <->
     ((MIN_RFID_LENGTH <= length s <= MAX_RFID_LENGTH)%nat
      /\ remove_spaces s <> [] /\ forallb py_isalnum_char (remove_spaces s) = true))
  /\ (forall L e d, is_valid_rfid (strip d) = false ->
        process_scan L e d = (L, [ELog Warning])).
Proof.
  split; [exact is_valid_rfid_spec|].
  intros L e d H. unfold process_scan. rewrite H. reflexivity.
Qed.

Lemma C1_witness :
  is_valid_rfid (strip (s2l "ab")) = false
  /\ process_scan init_listener (mkEnv 10 RTransportError) (s2l "ab")
     = (init_listener, [ELog Warning]).
Proof.
  split; [reflexivity|]. apply (proj2 C1_validator_amended). reflexivity.
Defined.

(** ** C2: the dedup window *)

(** C2: over any sequence of candidates processed in order, the acceptance
    times (the [self.last_scan_time = current_time] writes) are pairwise at
    least one second apart, whatever the candidates; a valid candidate less
    than one second after the last acceptance is dropped as a duplicate with
    the listener state unchanged; and every call of [process_scan] either
    leaves the state unchanged without sending anything, or records the
    current time first and only then sends the POST. *)
Theorem C2_dedup_window :
  (forall L evs, spaced (set_times (snd (scan_run L evs))))
  /\ (forall L e d, is_valid_rfid (strip d) = true ->
        (now e - last_scan_time L < 1)%Q ->
        process_scan L e d = (L, [ELog Debug]))
  /\ (forall L e d,
        let '(L', effs) := process_scan L e d in
        (L' = L /\ set_times effs = [] /\ posts effs = [])
        \/ ((1 <= now e - last_scan_time L)%Q /\ L' = mkListener (now e)
            /\ exists rest,
                 effs = ESetLast (now e) :: ELog Info :: EPost flask_url (strip d) 5 :: rest)).
Proof.
  split; [|split].
  - intros L evs. exact (spaced_tail _ _ (scan_run_spaced L evs)).
  - intros L e d Hv Hlt.
    destruct (process_scan_cases L e d) as [[H _]|[[_ [_ H]]|[_ [Hge _]]]];
      [congruence | exact H |].
    exfalso. apply (Qlt_not_le _ _ Hlt Hge).
  - intros L e d.
    destruct (process_scan_cases L e d) as [[_ H]|[[_ [_ H]]|[_ [Hge H]]]]; rewrite H.
    + left; auto.
    + left; auto.
    + right. split; [exact Hge|split; [reflexivity|]]. eexists; reflexivity.
Qed.

Lemma C2_witness :
  process_scan (mkListener 100) (mkEnv (1005 # 10) RTransportError) (s2l "123456")
  = (mkListener 100, [ELog Debug]).
Proof.
  apply (proj1 (proj2 C2_dedup_window)); [reflexivity|].
  simpl. unfold Qlt. simpl. lia.
Defined.

(** ** C8: delivery *)

(** C8: an accepted candidate (valid after stripping, and at least one
    second after the last acceptance) gives exactly one POST, to the scan
    endpoint, with the stripped identifier as [rfid] and a 5 second timeout,
    whatever the response; on a transport error or a status other than 200
    an error is logged, and nothing is kept for a retry (the new state is
    only the acceptance time). *)
Theorem C8_single_post (L : listener) (e : env) (d : pystr)
    (Hv : is_valid_rfid (strip d) = true)
    (Hnd : (1 <= now e - last_scan_time L)%Q) :
  let '(L', effs) := process_scan L e d in
  posts effs = [(flask_url, strip d, 5)]
  /\ L' = mkListener (now e)
  /\ ((resp e = RTransportError \/ exists st b, resp e = RStatus st b /\ st <> 200) ->
      In (ELog Error) effs).
Proof.
  destruct (process_scan_cases L e d) as [[H _]|[[_ [Hlt _]]|[_ [_ H]]]].
  - congruence.
  - exfalso. exact (Qlt_not_le _ _ Hlt Hnd).
  - rewrite H. split; [|split; [reflexivity|]].
    + simpl. destruct (handle_response_quiet (resp e)) as [_ [-> _]]. reflexivity.
    + intros [Ht|[st [b [Hs Hne]]]]; apply in_or_app; right.
      * rewrite Ht. left. reflexivity.
      * rewrite Hs. simpl. apply Z.eqb_neq in Hne. rewrite Hne. left. reflexivity.
Qed.

Lemma C8_witness :
  posts (snd (process_scan init_listener (mkEnv 1000 (RStatus 500 None)) (s2l "123456")))
  = [(flask_url, s2l "123456", 5)].
Proof.
  pose proof (C8_single_post init_listener (mkEnv 1000 (RStatus 500 None)) (s2l "123456")
                eq_refl) as H.
  assert (Hq : (1 <= now (mkEnv 1000 (RStatus 500 None)) - last_scan_time init_listener)%Q)
    by (simpl; unfold Qle; simpl; lia).
  specialize (H Hq).
  destruct (process_scan _ _ _) as [L' effs]. simpl. exact (proj1 H).
Defined.

(** ** C10: stripping before validation and delivery *)

(** C10: [process_scan] validates and sends the stripped candidate: whatever
    it posts is [strip d], whose first and last characters are not
    whitespace, and it posts only when [strip d] is valid; and a buffer
    longer than 20 characters, which the validator rejects as it is, is
    accepted and posted stripped once a second has passed since the last
    accepted scan. *)
Theorem C10_strip_before_validation :
  (forall L e d,
     let '(L', effs) := process_scan L e d in
     (forall u r t, In (u, r, t) (posts effs) ->
        r = strip d
        /\ (forall c rest, r = c :: rest -> py_isspace c = false)
        /\ (forall c rest, r = rest ++ [c] -> py_isspace c = false))
     /\ (posts effs <> [] -> is_valid_rfid (strip d) = true))
  /\ (exists d, (20 < length d)%nat /\ is_valid_rfid d = false
               /\ is_valid_rfid (strip d) = true
               /\ forall L e, (1 <= now e - last_scan_time L)%Q ->
                    posts (snd (process_scan L e d)) = [(flask_url, strip d, 5)]).
Proof.
  split.
  - intros L e d.
    assert (Hr : forall u r t, In (u, r, t) [(flask_url, strip d, 5)] ->
        r = strip d
        /\ (forall c rest, r = c :: rest -> py_isspace c = false)
        /\ (forall c rest, r = rest ++ [c] -> py_isspace c = false)).
    { intros u r t [Hin|[]]. inversion Hin; subst.
      split; [reflexivity|split]; intros c rest Hc;
        [exact (strip_head _ _ _ Hc) | exact (strip_last _ _ _ Hc)]. }
    destruct (process_scan_cases L e d) as [[_ H]|[[_ [_ H]]|[Hv [_ H]]]]; rewrite H.
    + split; [intros u r t []|intros Hn; exfalso; apply Hn; reflexivity].
    + split; [intros u r t []|intros Hn; exfalso; apply Hn; reflexivity].
    + simpl posts. destruct (handle_response_quiet (resp e)) as [_ [Hp _]].
      rewrite ?posts_app, Hp. simpl. split; [exact Hr | intros _; exact Hv].
  - exists (s2l "               123456"). split; [simpl; lia|].
    split; [reflexivity|split; [reflexivity|]]. intros L e Hle.
    destruct (process_scan_cases L e (s2l "               123456"))
      as [[Hv _]|[[_ [Hlt _]]|[_ [_ H]]]].
    + discriminate Hv.
    + exfalso. exact (Qlt_not_le _ _ Hlt Hle).
    + rewrite H. destruct (handle_response_quiet (resp e)) as [_ [Hp _]].
      simpl posts. rewrite ?posts_app, Hp. reflexivity.
Qed.

(** ** Handlers of the Scan Assembler run without overlap *)

Lemma process_scan_quiet L e d :
  scans (snd (process_scan L e d)) = [] /\ timer_free (snd (process_scan L e d)).
Proof.
  destruct (process_scan_cases L e d) as [[_ H]|[[_ [_ H]]|[_ [_ H]]]]; rewrite H; simpl.
  - split; [reflexivity|]. intros x [<-|[]]; exact I.
  - split; [reflexivity|]. intros x [<-|[]]; exact I.
  - destruct (handle_response_quiet (resp e)) as [_ [_ Hs]]. split; [exact Hs|].
    intros x [<-|[<-|[<-|Hin]]]; try exact I.
    destruct (resp e) as [|st [[[] []]|]]; simpl in Hin;
      try destruct (st =? 200); simpl in Hin;
      repeat (destruct Hin as [<-|Hin]; [exact I|]); destruct Hin.
Qed.

Lemma quiet_app l1 l2 : quiet l1 -> quiet l2 -> quiet (l1 ++ l2).
Proof.
  intros [H1 T1] [H2 T2]. split.
  - induction l1 as [|x l1 IH]; [exact H2|]. destruct x; simpl in *; try exact (IH H1 (fun y Hy => T1 y (or_intror Hy))); discriminate.
  - intros x Hx. apply in_app_or in Hx as [Hx|Hx]; [exact (T1 x Hx) | exact (T2 x Hx)].
Qed.

Ltac quiet_list :=
  split; [reflexivity | intros ? Hx; repeat (destruct Hx as [<-|Hx]; [exact I|]); destruct Hx].

Lemma handle_response_quiet_effs r : quiet (handle_response r).
Proof.
  destruct r as [|st [[[] []]|]]; simpl; try destruct (st =? 200); quiet_list.
Qed.

Lemma ps_run d ret A es A' effs :
  run_prog (process_scan_prog d ret) A es = Some (A', effs) ->
  exists es1 es2 A1 eff1 eff2,
    es = es1 ++ es2 /\ effs = eff1 ++ eff2 /\ same_but_lst A A1 /\ quiet eff1
    /\ run_prog ret A1 es2 = Some (A', eff2).
Proof.
  destruct es as [|e1 es]; [discriminate|].
  unfold process_scan_prog. cbn [run_prog].
  destruct (negb (is_valid_rfid (strip d))).
  - destruct (run_prog ret A es) as [[A2 e2]|] eqn:R; [|discriminate].
    intro H; injection H as <- <-.
    exists [e1], es, A, [ELog Warning], e2.
    split; [reflexivity|split; [reflexivity|split; [repeat split|split; [quiet_list|exact R]]]].
  - destruct es as [|e2 es]; [discriminate|]. cbn [run_prog].
    destruct (Qltb _ 1).
    + destruct (run_prog ret A es) as [[A2 e3]|] eqn:R; [|discriminate].
      intro H; injection H as <- <-.
      exists [e1; e2], es, A, [ELog Debug], e3.
      split; [reflexivity|split; [reflexivity|split; [repeat split|split; [quiet_list|exact R]]]].
    + destruct es as [|e3 es]; [discriminate|]. cbn [run_prog].
      destruct es as [|e4 es]; [discriminate|]. cbn [run_prog].
      destruct (run_prog ret _ es) as [[A2 e5]|] eqn:R; [|discriminate].
      intro H; injection H as <- <-.
      exists [e1; e2; e3; e4], es, (set_lst A (mkListener (now e1))), ([ESetLast (now e1); ELog Info; EPost flask_url (strip d) 5] ++ handle_response (resp e4)), e5.
      split; [reflexivity|]. split; [simpl; reflexivity|].
      split; [repeat split|]. split; [|exact R].
      apply quiet_app; [quiet_list | apply handle_response_quiet_effs].
Qed.

Lemma ps_run_exists d ret A (e : env) :
  exists es1 A1 eff1, same_but_lst A A1 /\ quiet eff1
    /\ forall es2, run_prog (process_scan_prog d ret) A (es1 ++ es2)
                   = match run_prog ret A1 es2 with
                     | Some (A2, eff2) => Some (A2, eff1 ++ eff2)
                     | None => None
                     end.
Proof.
  unfold process_scan_prog.
  destruct (negb (is_valid_rfid (strip d))) eqn:V.
  - exists [e], A, [ELog Warning]. split; [repeat split|split; [quiet_list|]].
    intro es2. cbn [app run_prog]. try rewrite V. reflexivity.
  - destruct (Qltb (now e - last_scan_time (a_lst A)) 1) eqn:Q.
    + exists [e; e], A, [ELog Debug]. split; [repeat split|split; [quiet_list|]].
      intro es2. cbn [app run_prog]. try rewrite V. cbn. try rewrite Q.
      destruct (run_prog ret A es2) as [[A2 e2]|]; reflexivity.
    + exists [e; e; e; e], (set_lst A (mkListener (now e))),
        ([ESetLast (now e); ELog Info; EPost flask_url (strip d) 5] ++ handle_response (resp e)).
      split; [repeat split|split; [apply quiet_app; [quiet_list | apply handle_response_quiet_effs]|]].
      intro es2. simpl. try rewrite V. simpl. try rewrite Q. simpl.
      destruct (run_prog ret _ es2) as [[A2 e2]|]; reflexivity.
Qed.

Lemma flush_run A es A' effs :
  scan_buffer A <> [] ->
  run_prog flush_scan_buffer A es = Some (A', effs) ->
  scan_buffer A' = [] /\ scan_timer A' = None /\ live A' = live A /\ next_id A' = next_id A
  /\ exists rest, effs = [ELog Debug; EScan (scan_buffer A)] ++ rest /\ quiet rest.
Proof.
  intros Hb H. unfold flush_scan_buffer in H.
  destruct (scan_buffer A) as [|x r] eqn:B; [congruence|].
  destruct es as [|e1 es]; [discriminate H|]. cbn [run_prog truthy] in H. rewrite B in H. cbn [run_prog truthy] in H.
  destruct es as [|e2 es]; [discriminate H|]. cbn [run_prog truthy] in H.
  destruct es as [|e3 es]; [discriminate H|]. cbn [run_prog truthy] in H. rewrite B in H.
  destruct (run_prog (process_scan_prog _ _) A es) as [[A2 e4]|] eqn:R; [|discriminate].
  injection H as <- <-.
  destruct (ps_run _ _ _ _ _ _ R) as [es1 [es2 [A1 [eff1 [eff2 [-> [-> [[S1 [S2 [S3 S4]]] [Hq R2]]]]]]]]].
  destruct es2 as [|e5 [|e6 [|]]]; try discriminate R2. simpl in R2.
  injection R2 as <- <-. simpl.
  split; [reflexivity|split; [reflexivity|split; [congruence|split; [congruence|]]]].
  exists eff1. rewrite !app_nil_r. split; [reflexivity|exact Hq].
Qed.

Lemma flush_exists A (e : env) :
  scan_buffer A <> [] -> exists es A' effs, run_prog flush_scan_buffer A es = Some (A', effs).
Proof.
  intro Hb.
  destruct (ps_run_exists (scan_buffer A)
              (Stmt (fun _ A => (set_buffer A [], [], Stmt (fun _ A => (set_timer A None, [], Done)))))
              A e) as [es1 [A1 [eff1 [_ [_ H]]]]].
  exists ([e; e; e] ++ es1 ++ [e; e]).
  unfold flush_scan_buffer. cbn [app run_prog].
  destruct (scan_buffer A) as [|x r] eqn:B; [congruence|]. cbn [run_prog truthy].
  rewrite ?B. cbn [run_prog truthy]. rewrite ?B. rewrite H. cbn. eexists; eexists; reflexivity.
Qed.

Lemma run_prog_cons k A e es :
  run_prog (Stmt k) A (e :: es)
  = let '(A1, eff1, p1) := k e A in
    match run_prog p1 A1 es with
    | Some (A2, eff2) => Some (A2, eff1 ++ eff2)
    | None => None
    end.
Proof. reflexivity. Qed.

Lemma run_done A es A' effs :
  run_prog Done A es = Some (A', effs) -> es = [] /\ A' = A /\ effs = [].
Proof. destruct es; simpl; [intro H; injection H as <- <-; auto | discriminate]. Qed.

Ltac run_step H e :=
  let es := fresh "es" in
  match type of H with
  | run_prog _ _ ?l = _ => destruct l as [|e es]; [discriminate H|]
  end;
  rewrite run_prog_cons in H; cbv beta iota zeta in H.

Lemma term_process_run B es B' effs :
  run_prog
    (Stmt (fun _ A =>
       if truthy (scan_buffer A) then
         (A, [], Stmt (fun _ A =>
            (A, [EScan (scan_buffer A)],
             process_scan_prog (scan_buffer A) (Stmt (fun _ A => (set_buffer A [], [], Done))))))
       else (A, [], Done))) B es = Some (B', effs) ->
  scan_buffer B' = [] /\ scan_timer B' = scan_timer B /\ live B' = live B
  /\ next_id B' = next_id B
  /\ (scan_buffer B = [] -> B' = B /\ effs = [])
  /\ exists rest,
       effs = (if truthy (scan_buffer B) then EScan (scan_buffer B) :: rest else rest)
       /\ quiet rest.
Proof.
  intro H. destruct es as [|e1 es]; [discriminate|]. cbn [run_prog] in H.
  destruct (truthy (scan_buffer B)) eqn:Tb.
  - destruct es as [|e2 es]; [discriminate|]. cbn [run_prog] in H.
    destruct (run_prog (process_scan_prog _ _) B es) as [[B3 e3]|] eqn:R; [|discriminate].
    injection H as <- <-.
    destruct (ps_run _ _ _ _ _ _ R) as [es1 [es2 [A1 [eff1 [eff2 [-> [-> [[S1 [S2 [S3 S4]]] [Hq R2]]]]]]]]].
    destruct es2 as [|e5 [|e6]]; try discriminate R2. simpl in R2.
    injection R2 as <- <-. simpl.
    split; [reflexivity|split; [congruence|split; [congruence|split; [congruence|split]]]].
    + intro Hn. rewrite Hn in Tb. discriminate.
    + exists (eff1 ++ []). split; [reflexivity|]. rewrite app_nil_r. exact Hq.
  - destruct es as [|e2 es]; [|discriminate]. cbn [run_prog] in H. injection H as <- <-.
    split; [destruct (scan_buffer B); [reflexivity|discriminate]|].
    split; [reflexivity|split; [reflexivity|split; [reflexivity|split]]].
    + intros _. split; reflexivity.
    + exists []. split; [reflexivity|quiet_list].
Qed.

Lemma hic_term_run c A es A' effs :
  asm_inv A -> is_terminator c = true ->
  run_prog (handle_input_char c) A es = Some (A', effs) ->
  scan_buffer A' = [] /\ scan_timer A' = None /\ live A' = [] /\ next_id A' = next_id A
  /\ (scan_buffer A = [] -> A' = A /\ effs = [])
  /\ exists rest,
       effs = map (fun t => ECancel (t_id t)) (live A)
              ++ (if truthy (scan_buffer A) then EScan (scan_buffer A) :: rest else rest)
       /\ quiet rest.
Proof.
  intros Inv Ht H. unfold handle_input_char in H. rewrite Ht in H.
  unfold asm_inv in Inv. run_step H e1.
  destruct (scan_timer A) as [id|] eqn:T.
  - destruct Inv as [[d L] Hb].
    destruct (run_prog _ _ _) as [[B e4]|] eqn:R in H; [|discriminate].
    injection H as <- <-.
    unfold cancel_stmt in R. run_step R e2. rewrite T in R.
    destruct (run_prog _ _ _) as [[B' e5]|] eqn:R' in R; [|discriminate].
    injection R as <- <-.
    run_step R' e3.
    destruct (run_prog _ _ _) as [[B'' e6]|] eqn:R'' in R'; [|discriminate].
    injection R' as <- <-.
    apply term_process_run in R'' as [S1 [S2 [S3 [S4 [S5 [rest [Hr Hq]]]]]]].
    rewrite L in S3. simpl in S2, S3, S4. rewrite Nat.eqb_refl in S3. simpl in S3.
    split; [exact S1|split; [exact S2|split; [exact S3|split; [exact S4|split]]]].
    + intro Hn. congruence.
    + exists rest. split; [|exact Hq]. rewrite L, Hr. reflexivity.
  - destruct (run_prog _ _ _) as [[B e4]|] eqn:R in H; [|discriminate].
    injection H as <- <-.
    apply term_process_run in R as [S1 [S2 [S3 [S4 [S5 [rest [Hr Hq]]]]]]].
    split; [exact S1|split; [congruence|split; [congruence|split; [exact S4|split]]]].
    + intro Hn. destruct (S5 Hn) as [-> ->]. split; reflexivity.
    + exists rest. split; [|exact Hq]. rewrite Inv, Hr. reflexivity.
Qed.

Lemma hic_char_run c A es A' effs :
  asm_inv A -> is_terminator c = false ->
  run_prog (handle_input_char c) A es = Some (A', effs) ->
  exists es0 e5, es = es0 ++ [e5]
    /\ A' = mkAsm (a_lst A) (scan_buffer A ++ [c]) (Some (next_id A))
              [mkTimer (next_id A) (now e5 + SCAN_TIMEOUT)] (S (next_id A))
    /\ effs = map (fun t => ECancel (t_id t)) (live A)
              ++ [EStart (next_id A) (now e5 + SCAN_TIMEOUT)].
Proof.
  intros Inv Ht H. unfold handle_input_char in H. rewrite Ht in H.
  unfold asm_inv in Inv. run_step H e1.
  destruct (run_prog _ _ _) as [[B f1]|] eqn:R in H; [|discriminate].
  injection H as <- <-.
  run_step R e2. simpl scan_timer in R; cbv beta iota zeta in R.
  destruct (scan_timer A) as [id|] eqn:T.
  - destruct Inv as [[d L] Hb].
    destruct (run_prog _ _ _) as [[B2 f2]|] eqn:R2 in R; [|discriminate].
    injection R as <- <-.
    unfold cancel_stmt in R2. run_step R2 e3. simpl scan_timer in R2; cbv beta iota zeta in R2. rewrite T in R2.
    destruct (run_prog _ _ _) as [[B3 f3]|] eqn:R3 in R2; [|discriminate].
    injection R2 as <- <-.
    run_step R3 e4.
    destruct (run_prog _ _ _) as [[B4 f4]|] eqn:R4 in R3; [|discriminate].
    injection R3 as <- <-.
    run_step R4 e5. simpl scan_timer in R4; cbv beta iota zeta in R4.
    destruct (run_prog _ _ _) as [[B5 f5]|] eqn:R5 in R4; [|discriminate].
    injection R4 as <- <-. apply run_done in R5 as [-> [-> ->]].
    exists [e1; e2; e3; e4], e5. split; [reflexivity|].
    simpl. rewrite L. unfold cancel_timer. simpl. rewrite Nat.eqb_refl. simpl. split; reflexivity.
  - destruct (run_prog _ _ _) as [[B2 f2]|] eqn:R2 in R; [|discriminate].
    injection R as <- <-.
    run_step R2 e3.
    destruct (run_prog _ _ _) as [[B3 f3]|] eqn:R3 in R2; [|discriminate].
    injection R2 as <- <-.
    run_step R3 e4. simpl scan_timer in R3; cbv beta iota zeta in R3.
    destruct (run_prog _ _ _) as [[B5 f5]|] eqn:R5 in R3; [|discriminate].
    injection R3 as <- <-. apply run_done in R5 as [-> [-> ->]].
    exists [e1; e2; e3], e4. split; [reflexivity|].
    simpl. rewrite Inv. split; reflexivity.
Qed.

Lemma fire_run A e id es A' effs :
  asm_inv A -> seq_step A e (TimerFires id) es = Some (A', effs) ->
  scan_timer A = Some id
  /\ (exists d, live A = [mkTimer id d] /\ Qle_bool d (now e) = true)
  /\ scan_buffer A <> []
  /\ scan_buffer A' = [] /\ scan_timer A' = None /\ live A' = [] /\ next_id A' = next_id A
  /\ exists rest, effs = [ELog Debug; EScan (scan_buffer A)] ++ rest /\ quiet rest.
Proof.
  intros Inv H. unfold seq_step in H. unfold asm_inv in Inv.
  destruct (find_timer id (live A)) as [tm|] eqn:F; [|discriminate].
  destruct (Qle_bool (t_deadline tm) (now e)) eqn:Q; [|discriminate].
  destruct (scan_timer A) as [id'|] eqn:T.
  - destruct Inv as [[d L] Hb].
    rewrite L in F. unfold find_timer in F. simpl in F.
    destruct (Nat.eqb id' id) eqn:E; [|discriminate].
    apply Nat.eqb_eq in E as ->. injection F as <-. simpl in Q.
    apply flush_run in H as [S1 [S2 [S3 [S4 [rest [Hr Hq]]]]]]; [|exact Hb].
    rewrite L in S3. simpl in S3. rewrite Nat.eqb_refl in S3. simpl in S3.
    split; [reflexivity|split; [exists d; split; [exact L|exact Q]|split; [exact Hb|]]].
    split; [exact S1|split; [exact S2|split; [exact S3|split; [exact S4|]]]].
    exists rest. split; [exact Hr|exact Hq].
  - rewrite Inv in F. discriminate.
Qed.

Lemma asm_inv_init : asm_inv init_asm.
Proof. reflexivity. Qed.

Lemma asm_inv_seq A e ev es A' effs :
  asm_inv A -> seq_step A e ev es = Some (A', effs) -> asm_inv A'.
Proof.
  intros Inv H. destruct ev as [c|id].
  - simpl in H. destruct (is_terminator c) eqn:Ht.
    + destruct (hic_term_run _ _ _ _ _ Inv Ht H) as [_ [S2 [S3 _]]].
      unfold asm_inv. rewrite S2. exact S3.
    + destruct (hic_char_run _ _ _ _ _ Inv Ht H) as [es0 [e5 [_ [-> _]]]].
      unfold asm_inv. simpl. split; [eexists; reflexivity|].
      destruct (scan_buffer A); discriminate.
  - destruct (fire_run _ _ _ _ _ _ Inv H) as [_ [_ [_ [_ [S2 [S3 _]]]]]].
    unfold asm_inv. rewrite S2. exact S3.
Qed.

Lemma seq_reachable_inv A : seq_reachable A -> asm_inv A.
Proof.
  induction 1 as [|A e ev es A' effs _ IH H].
  - exact asm_inv_init.
  - exact (asm_inv_seq _ _ _ _ _ _ IH H).
Qed.

(** A run without overlap is a schedule of the two threads. *)
Lemma run_main p A es A' effs ths :
  run_prog p A es = Some (A', effs) ->
  mrun (mkMachine A p ths) (map (fun e => (e, SMain)) es) = Some (mkMachine A' Done ths, effs).
Proof.
  revert p A effs. induction es as [|e es IH]; intros p A effs H.
  - destruct p; [|discriminate]. injection H as <- <-. reflexivity.
  - destruct p as [|k]; [discriminate|]. rewrite run_prog_cons in H.
    simpl. destruct (k e A) as [[A1 eff1] p1].
    destruct (run_prog p1 A1 es) as [[A2 eff2]|] eqn:R; [|discriminate].
    injection H as <- <-. rewrite (IH _ _ _ R). reflexivity.
Qed.

Lemma run_thread id p A es A' effs :
  run_prog p A es = Some (A', effs) ->
  p <> Done ->
  mrun (mkMachine A Done [(id, p)]) (map (fun e => (e, SThread id)) es)
  = Some (mkMachine A' Done [], effs).
Proof.
  revert p A effs. induction es as [|e es IH]; intros p A effs H Hp.
  - destruct p; [congruence|discriminate].
  - destruct p as [|k]; [discriminate|]. rewrite run_prog_cons in H.
    simpl. rewrite Nat.eqb_refl. destruct (k e A) as [[A1 eff1] p1].
    destruct (run_prog p1 A1 es) as [[A2 eff2]|] eqn:R; [|discriminate].
    injection H as <- <-. destruct p1 as [|k1].
    + apply run_done in R as [-> [-> ->]]. simpl. rewrite Nat.eqb_refl. reflexivity.
    + simpl. rewrite Nat.eqb_refl. rewrite (IH _ _ _ R); [reflexivity|discriminate].
Qed.

Lemma seq_step_mrun A e ev es A' effs :
  seq_step A e ev es = Some (A', effs) ->
  exists sch, mrun (mkMachine A Done []) sch = Some (mkMachine A' Done [], effs).
Proof.
  destruct ev as [c|id]; unfold seq_step; intro H.
  - exists ((e, SRead c) :: map (fun e => (e, SMain)) es). simpl.
    rewrite (run_main _ _ _ _ _ [] H). reflexivity.
  - destruct (find_timer id (live A)) as [tm|] eqn:F; [|discriminate].
    destruct (Qle_bool (t_deadline tm) (now e)) eqn:Q; [|discriminate].
    exists ((e, SFire id) :: map (fun e => (e, SThread id)) es). simpl.
    rewrite F, Q. simpl.
    rewrite (run_thread _ _ _ _ _ _ H); [reflexivity|discriminate].
Qed.

Lemma scans_cancels (ts : list timer) : scans (map (fun t => ECancel (t_id t)) ts) = [].
Proof. induction ts; simpl; auto. Qed.

(** ** C3: one candidate per flush *)

(** C3 (as stated, refuted): [flush_scan_buffer] runs on the timer's thread
    and nothing orders it with the read loop. The timer of "123456" runs at
    2 s and its thread waits for the answer to its POST; a newline read at
    3.5 s finds the same buffer and the timer still in [self.scan_timer], and
    hands the buffer to [process_scan] a second time, which posts it again. *)
Lemma C3_counterexample :
  match mrun init_machine c3_sched with
  | Some (M, effs) =>
      scans effs = [s2l "123456"; s2l "123456"]
      /\ posts effs = [(flask_url, s2l "123456", 5); (flask_url, s2l "123456", 5)]
      /\ m_main M = Done /\ m_threads M = []
  | None => False
  end.
Proof. vm_compute. repeat split. Qed.

(** C3 (amended): when every handler (the read loop's handling of one
    character, or the flush of a timer) runs to completion before the next
    starts, from any state so reached a terminator hands exactly the buffer
    to [process_scan] when it is non-empty and nothing when it is empty (then
    the handler changes nothing), a timer that runs always finds a non-empty
    buffer and hands exactly that buffer on, a plain character hands nothing
    on, and after a terminator or timer the buffer is empty. *)
Theorem C3_one_candidate_per_flush (A : assembler) (e : env) (ev : asm_event)
    (es : list env) (A' : assembler) (effs : list effect)
    (HR : seq_reachable A) (HS : seq_step A e ev es = Some (A', effs)) :
  match ev with
  | InChar c =>
      if is_terminator c then
        scans effs = (if truthy (scan_buffer A) then [scan_buffer A] else [])
        /\ scan_buffer A' = []
        /\ (scan_buffer A = [] -> A' = A /\ effs = [])
      else scans effs = []
  | TimerFires _ =>
      scan_buffer A <> [] /\ scans effs = [scan_buffer A] /\ scan_buffer A' = []
  end.
Proof.
  pose proof (seq_reachable_inv A HR) as HI.
  destruct ev as [c|id].
  - unfold seq_step in HS. destruct (is_terminator c) eqn:Ht.
    + destruct (hic_term_run c A es A' effs HI Ht HS)
        as [S1 [_ [_ [_ [S5 [rest [Hr [Hq _]]]]]]]].
      split; [|split; [exact S1|exact S5]].
      rewrite Hr, scans_app, scans_cancels.
      destruct (truthy (scan_buffer A)); simpl; rewrite Hq; reflexivity.
    + destruct (hic_char_run c A es A' effs HI Ht HS) as [es0 [e5 [_ [_ ->]]]].
      rewrite scans_app, scans_cancels. reflexivity.
  - destruct (fire_run A e id es A' effs HI HS)
      as [_ [_ [Hb [S1 [_ [_ [_ [rest [Hr [Hq _]]]]]]]]]].
    split; [exact Hb|split; [|exact S1]].
    rewrite Hr. simpl. rewrite Hq. reflexivity.
Qed.

Lemma C3_witness :
  match seq_step (mkAsm init_listener (s2l "1") (Some 0%nat) [mkTimer 0 2] 1)
          (w_env 2) (TimerFires 0) (repeat (w_env 2) 6) with
  | Some (A2, effs) =>
      s2l "1" <> [] /\ scans effs = [s2l "1"] /\ scan_buffer A2 = []
  | None => False
  end.
Proof.
  assert (HR : seq_reachable (mkAsm init_listener (s2l "1") (Some 0%nat) [mkTimer 0 2] 1)).
  { apply (sreach_step init_asm (w_env 0) (InChar "1"%char) (repeat (w_env 0) 4)
             _ [EStart 0 (0 + SCAN_TIMEOUT)] sreach_init).
    vm_compute. reflexivity. }
  destruct (seq_step _ (w_env 2) (TimerFires 0) (repeat (w_env 2) 6)) as [[A2 effs]|] eqn:HS.
  - exact (C3_one_candidate_per_flush _ _ _ _ _ _ HR HS).
  - vm_compute in HS. discriminate.
Defined.

(** ** C4: the debounce timer *)

(** C4 (as stated, refuted): with the flush of timer 5 waiting on its POST,
    "7" read at 2.5 s starts timer 6; the flush then sets [self.scan_timer]
    to [None], so "8" read at 3 s does not cancel timer 6 and starts timer 7:
    two timers are outstanding, and timer 6 flushes "8" at 4.5 s, before
    3 s + 2 s. *)
Lemma C4_counterexample :
  match mrun init_machine c4_sched with
  | Some (M, _) =>
      length (live (m_asm M)) = 2%nat /\ scan_buffer (m_asm M) = s2l "8"
      /\ (9 # 2 < 3 + SCAN_TIMEOUT)%Q
      /\ match mrun M (fire_at (9 # 2) 6 3) with
         | Some (_, effs) => scans effs = [s2l "8"]
         | None => False
         end
  | None => False
  end.
Proof. vm_compute. repeat split; reflexivity. Qed.

(** C4 (amended): when every handler runs to completion before the next
    starts, from any state so reached at most one flush is outstanding. A
    character other than a terminator cancels the outstanding timer (if any)
    and only then starts one new timer, whose deadline is [SCAN_TIMEOUT]
    after the moment of its [start()]; that timer cannot run before the
    deadline, no other timer can run, from the deadline on it can run, and
    when it runs it hands the buffer to [process_scan] once and leaves no
    timer outstanding. A terminator cancels the outstanding timer before
    anything else it does, and leaves no timer outstanding. *)
Theorem C4_debounce (A : assembler) (HR : seq_reachable A) :
  (length (live A) <= 1)%nat
  /\ (forall e c es A' effs, is_terminator c = false ->
        seq_step A e (InChar c) es = Some (A', effs) ->
        exists es0 e5, es = es0 ++ [e5]
        /\ effs = map (fun t => ECancel (t_id t)) (live A)
                 ++ [EStart (next_id A) (now e5 + SCAN_TIMEOUT)]
        /\ live A' = [mkTimer (next_id A) (now e5 + SCAN_TIMEOUT)]
        /\ scan_timer A' = Some (next_id A)
        /\ (forall e' id es', (now e' < now e5 + SCAN_TIMEOUT)%Q ->
              seq_step A' e' (TimerFires id) es' = None)
        /\ (forall e' id es', id <> next_id A -> seq_step A' e' (TimerFires id) es' = None)
        /\ (forall e', (now e5 + SCAN_TIMEOUT <= now e')%Q ->
              (exists es' A'' effs',
                 seq_step A' e' (TimerFires (next_id A)) es' = Some (A'', effs'))
              /\ forall es' A'' effs',
                   seq_step A' e' (TimerFires (next_id A)) es' = Some (A'', effs') ->
                   scans effs' = [scan_buffer A'] /\ live A'' = []
                   /\ forall e'' id es'', seq_step A'' e'' (TimerFires id) es'' = None))
  /\ (forall e c es A' effs, is_terminator c = true ->
        seq_step A e (InChar c) es = Some (A', effs) ->
        live A' = [] /\ scan_timer A' = None
        /\ exists rest, effs = map (fun t => ECancel (t_id t)) (live A) ++ rest
                        /\ timer_free rest).
Proof.
  pose proof (seq_reachable_inv A HR) as HI.
  split; [|split].
  - pose proof HI as HI'. unfold asm_inv in HI'.
    destruct (scan_timer A); [destruct HI' as [[d ->] _]|rewrite HI']; simpl; lia.
  - intros e c es A' effs Ht HS.
    pose proof (asm_inv_seq _ _ _ _ _ _ HI HS) as HI2.
    unfold seq_step in HS.
    destruct (hic_char_run c A es A' effs HI Ht HS) as [es0 [e5 [Hes [HA Heff]]]].
    exists es0, e5. split; [exact Hes|split; [exact Heff|]].
    rewrite HA. cbn [live scan_timer scan_buffer].
    split; [reflexivity|split; [reflexivity|split; [|split]]].
    + intros e' id es' Hlt. unfold seq_step. cbn [live].
      unfold find_timer. simpl. destruct (Nat.eqb (next_id A) id); [|reflexivity].
      simpl. destruct (Qle_bool (now e5 + SCAN_TIMEOUT) (now e')) eqn:Hq; [|reflexivity].
      apply Qle_bool_iff in Hq. exfalso. exact (Qlt_not_le _ _ Hlt Hq).
    + intros e' id es' Hne. unfold seq_step. cbn [live].
      unfold find_timer. simpl.
      destruct (Nat.eqb (next_id A) id) eqn:Hid; [apply Nat.eqb_eq in Hid; congruence|].
      reflexivity.
    + intros e' Hle. rewrite HA in HI2. split.
      * unfold seq_step, find_timer. cbn [live find t_id]. rewrite Nat.eqb_refl.
        cbn [t_deadline]. apply Qle_bool_iff in Hle. rewrite Hle.
        apply (flush_exists _ e'). simpl. destruct (scan_buffer A); discriminate.
      * intros es' A'' effs' HF.
        destruct (fire_run _ _ _ _ _ _ HI2 HF)
          as [_ [_ [_ [_ [_ [S3 [_ [rest [Hr [Hq _]]]]]]]]]].
        split; [rewrite Hr; simpl; rewrite Hq; reflexivity|split; [exact S3|]].
        intros e'' id es''. unfold seq_step. rewrite S3. reflexivity.
  - intros e c es A' effs Ht HS. unfold seq_step in HS.
    destruct (hic_term_run c A es A' effs HI Ht HS)
      as [_ [S2 [S3 [_ [_ [rest [Hr [_ Hq]]]]]]]].
    split; [exact S3|split; [exact S2|]].
    exists (if truthy (scan_buffer A) then EScan (scan_buffer A) :: rest else rest).
    split; [exact Hr|].
    destruct (truthy (scan_buffer A)); [|exact Hq].
    intros x [<-|Hin]; [exact I|exact (Hq x Hin)].
Qed.

Lemma C4_witness :
  (length (live init_asm) <= 1)%nat
  /\ seq_step (mkAsm init_listener (s2l "7") (Some 0%nat) [mkTimer 0 (0 + SCAN_TIMEOUT)] 1)
       (w_env (3 # 2)) (TimerFires 0) (repeat (w_env (3 # 2)) 6) = None.
Proof.
  destruct (C4_debounce init_asm sreach_init) as [H1 [H2 _]].
  split; [exact H1|].
  destruct (H2 (w_env 0) "7"%char (repeat (w_env 0) 4)
              (mkAsm init_listener (s2l "7") (Some 0%nat) [mkTimer 0 (0 + SCAN_TIMEOUT)] 1)
              [EStart 0 (0 + SCAN_TIMEOUT)] eq_refl)
    as [es0 [e5 [Hes [_ [_ [_ [Hlt _]]]]]]]; [vm_compute; reflexivity|].
  apply (f_equal (@rev env)) in Hes. rewrite rev_app_distr in Hes. simpl in Hes.
  injection Hes as <- _. apply Hlt. unfold Qlt; simpl; lia.
Defined.

(** ** C5: falling back to stdin *)

Lemma first_some_none {A B : Type} (f : A -> option B) l :
  (forall x, In x l -> f x = None) -> first_some f l = None.
Proof.
  induction l as [|x l IH]; intro H; simpl; [reflexivity|].
  rewrite (H x (or_introl eq_refl)). apply IH. intros y Hy. exact (H y (or_intror Hy)).
Qed.

(** C5: when the locator returns no device, the strategy is [StdinRead]
    and no probe is run; when it returns a device the probe does not confirm,
    the strategy is [StdinRead]; and the locator returns no device when no
    block of the registry (or no registry) and no entry of the by-id directory
    (or no such directory) matches a signature, since method 3 selects
    nothing. *)
Theorem C5_fallback (re_search : pystr -> pystr -> bool)
    (find_handlers : pystr -> list pystr) (fs : sysfs) (probe : pystr -> probe_io) :
  (find_rfid_device re_search find_handlers fs = Ret None ->
     start_listening re_search find_handlers fs probe = Ret (StdinRead, []))
  /\ (forall p, find_rfid_device re_search find_handlers fs = Ret (Some p) ->
        fst (test_device_input (probe p)) <> PTrue ->
        exists probed, start_listening re_search find_handlers fs probe = Ret (StdinRead, probed))
  /\ ((forall content, registry fs = Some content ->
         forall block pattern, In block (split_blocks content) ->
           In pattern RFID_READER_PATTERNS -> re_search pattern block = false) ->
      (by_id_exists fs = false
       \/ exists links, by_id_listing fs = Some links
          /\ forall link pattern, In link links -> In pattern RFID_READER_PATTERNS ->
               re_search pattern link = false) ->
      find_rfid_device re_search find_handlers fs = Ret None).
Proof.
  split; [|split].
  - intro H. unfold start_listening. rewrite H. reflexivity.
  - intros p H Hp. unfold start_listening. rewrite H.
    destruct (truthy p); [|eexists; reflexivity].
    destruct (fst (test_device_input (probe p))); [congruence| |]; eexists; reflexivity.
  - intros Hreg Hby. unfold find_rfid_device.
    assert (H1 : match registry fs with
                 | Some content => first_some (block_device re_search find_handlers fs)
                                     (split_blocks content)
                 | None => None
                 end = None).
    { destruct (registry fs) as [content|] eqn:Hr; [|reflexivity].
      apply first_some_none. intros block Hb. unfold block_device.
      apply first_some_none. intros pattern Hp.
      rewrite (Hreg content eq_refl block pattern Hb Hp). reflexivity. }
    rewrite H1.
    destruct Hby as [Hn|[links [Hl Hno]]]; [rewrite Hn; reflexivity|].
    destruct (by_id_exists fs); [|reflexivity]. rewrite Hl.
    rewrite first_some_none; [reflexivity|].
    intros link Hlk. unfold link_device. apply first_some_none. intros pattern Hp.
    rewrite (Hno link pattern Hlk Hp). reflexivity.
Qed.


Lemma C5_witness :
  start_listening (fun pattern s => false) (fun _ => []) w_sys
    (fun _ => mkProbe OpenOk false []) = Ret (StdinRead, []).
Proof.
  destruct (C5_fallback (fun pattern s => false) (fun _ => []) w_sys
              (fun _ => mkProbe OpenOk false [])) as [H1 [_ H3]].
  apply H1. apply H3.
  - intros content _ block pattern _ _. reflexivity.
  - left. reflexivity.
Defined.

(** ** C9: what the probe reports *)

(** C9 (as stated, refuted): a permission failure and a timeout with no
    input give the caller the same value, [False], so the caller cannot tell
    them apart: [start_listening] takes the same decision for both. *)
Lemma C9_counterexample :
  fst (test_device_input (mkProbe OpenPermissionError false []))
  = fst (test_device_input (mkProbe OpenOk false []))
  /\ start_listening (fun _ _ => true) (fun _ => [s2l "event3"])
       (mkSys (Some (s2l "N: Name=RFID reader")) false None (fun _ => true) (fun p => p))
       (fun _ => mkProbe OpenPermissionError false [])
     = start_listening (fun _ _ => true) (fun _ => [s2l "event3"])
       (mkSys (Some (s2l "N: Name=RFID reader")) false None (fun _ => true) (fun p => p))
       (fun _ => mkProbe OpenOk false []).
Proof. split; reflexivity. Qed.

(** C9 (amended): the probe returns [False] both on a permission failure and
    on a timeout with no input; only its log output tells them apart: the
    permission failure is logged as an error followed by two remediation
    lines, the timeout only at info level. [start_listening], which looks
    only at the value returned, falls back to [StdinRead] on the located
    device in both cases, with the same result. *)
Theorem C9_probe_reports (io : probe_io) :
  (p_open io = OpenPermissionError ->
     test_device_input io = (PFalse, [ELog Info; ELog Error; ELog Info; ELog Info]))
  /\ (p_open io = OpenOk -> p_ready io = false ->
        test_device_input io = (PFalse, [ELog Info; ELog Info; ELog Info]))
  /\ (forall re_search find_handlers fs (probe : pystr -> probe_io) p,
        find_rfid_device re_search find_handlers fs = Ret (Some p) -> truthy p = true ->
        probe p = io ->
        p_open io = OpenPermissionError \/ (p_open io = OpenOk /\ p_ready io = false) ->
        start_listening re_search find_handlers fs probe = Ret (StdinRead, [p])).
Proof.
  unfold test_device_input. split; [intros -> | split; [intros -> -> |]]; [reflexivity..|].
  intros re_search find_handlers fs probe p Hf Ht Hp Ho.
  unfold start_listening. rewrite Hf, Ht, Hp. unfold test_device_input.
  destruct Ho as [-> | [-> ->]]; reflexivity.
Qed.

Lemma C9_witness :
  test_device_input (mkProbe OpenPermissionError true [x01])
  = (PFalse, [ELog Info; ELog Error; ELog Info; ELog Info])
  /\ start_listening (fun _ _ => true) (fun _ => [s2l "event3"])
       (mkSys (Some (s2l "N: Name=RFID reader")) false None (fun _ => true) (fun p => p))
       (fun _ => mkProbe OpenOk false [])
     = Ret (StdinRead, [s2l "/dev/input/event3"]).
Proof.
  split.
  - apply (proj1 (C9_probe_reports (mkProbe OpenPermissionError true [x01]))). reflexivity.
  - apply (proj2 (proj2 (C9_probe_reports (mkProbe OpenOk false [])))
             _ _ _ _ (s2l "/dev/input/event3")).
    + vm_compute. reflexivity.
    + reflexivity.
    + reflexivity.
    + right. split; reflexivity.
Defined.

(** ** C6 and C7: the read loops of [EnhancedRFIDListener] *)

Lemma keycode_in k c : keycode_to_char k = [c] -> In (k, c) keymap.
Proof.
  unfold keycode_to_char.
  destruct (find (fun p => fst p =? k) keymap) as [[k' c']|] eqn:F; [|discriminate].
  intro H. injection H as <-. apply find_some in F as [Hin Heq].
  simpl in Heq. apply Z.eqb_eq in Heq. subst. exact Hin.
Qed.

Lemma keymap_no_cr p : In p keymap -> snd p <> "013"%char.
Proof.
  intro Hp. repeat (destruct Hp as [<-|Hp]; [discriminate|]). destruct Hp.
Qed.

Lemma record_char_spec r c :
  record_char r = Some c ->
  length r = event_size /\ ev_type (unpack_event r) = 1 /\ ev_value (unpack_event r) = 1
  /\ keycode_to_char (ev_code (unpack_event r)) = [c].
Proof.
  unfold record_char.
  destruct (Nat.eqb (length r) event_size) eqn:L; [|discriminate].
  destruct (ev_type (unpack_event r) =? 1) eqn:T; [|discriminate].
  destruct (ev_value (unpack_event r) =? 1) eqn:V; [|discriminate]. simpl.
  destruct (keycode_to_char _) as [|c0 [|]]; try discriminate.
  intro H; injection H as <-.
  apply Nat.eqb_eq in L. apply Z.eqb_eq in T. apply Z.eqb_eq in V. auto.
Qed.

Lemma device_step_char e S r c :
  record_char r = Some c -> c <> "010"%char ->
  device_step e S (Some r) = (mkEnh (e_lst S) (e_buf S ++ [c]), []).
Proof.
  intros H Hn. destruct (record_char_spec r c H) as [L [T [V K]]].
  unfold device_step. rewrite L, T, V, K.
  destruct (list_eq_dec ascii_dec [c] ["010"%char]) as [E|_];
    [injection E as E; congruence | reflexivity].
Qed.

Lemma device_step_enter e S r :
  record_char r = Some "010"%char -> device_step e S (Some r) = enh_terminate e S.
Proof.
  intro H. destruct (record_char_spec r _ H) as [L [T [V K]]].
  unfold device_step. rewrite L, T, V, K. reflexivity.
Qed.

Lemma stdin_step_char e S c :
  c <> "010"%char -> c <> "013"%char ->
  stdin_step e S (Some c) = (mkEnh (e_lst S) (e_buf S ++ [c]), []).
Proof.
  intros H1 H2. unfold stdin_step.
  apply Ascii.eqb_neq in H1. apply Ascii.eqb_neq in H2. rewrite H1, H2. reflexivity.
Qed.

(** C6 (as stated, refuted): the stdin fallback does not follow the Scan
    Assembler's debounce rule. After "A1B2C3" with no terminator, the Scan
    Assembler of [RFIDListener] flushes the buffer when its 2 second timer
    runs, while [read_rfid_from_stdin], which has no timer, never hands it
    to [process_scan], however long it waits. *)
Lemma C6_counterexample :
  match mrun init_machine (type_at 0 (s2l "A1B2C3") ++ fire_at 2 5 9) with
  | Some (M, effs) => scans effs = [s2l "A1B2C3"] /\ m_threads M = []
  | None => False
  end
  /\ scans (snd (run_loop stdin_step (mkEnh init_listener [])
       (map (fun c => (w_env 0, Some c)) (s2l "A1B2C3")
          ++ [(w_env 2, None); (w_env 100, None)]))) = [].
Proof. split; vm_compute; [split|]; reflexivity. Qed.

(** C6 (amended): the stdin fallback treats newline and carriage return as
    terminators (a step on either runs the terminator branch) and otherwise
    appends the character to its buffer, with no debounce timer:
    without a terminator nothing is ever handed to [process_scan]. A sequence
    of characters followed by a newline gives exactly the state and effects
    that the device loop gives for complete key-press records of the same
    characters followed by an Enter record. *)
Theorem C6_stdin_matches_device (S : enh) (xs : list (env * ascii))
    (rs : list (env * list byte)) (et : env) (rterm : list byte)
    (Hrs : Forall2 (fun r x => fst r = fst x /\ record_char (snd r) = Some (snd x)
                               /\ snd x <> "010"%char) rs xs)
    (Ht : record_char rterm = Some "010"%char) :
  run_loop stdin_step S (map (fun x => (fst x, Some (snd x))) xs ++ [(et, Some "010"%char)])
  = run_loop device_step S (map (fun r => (fst r, Some (snd r))) rs ++ [(et, Some rterm)])
  /\ (forall e S' c, is_terminator c = true -> stdin_step e S' (Some c) = enh_terminate e S')
  /\ (forall e S' c, is_terminator c = false ->
        stdin_step e S' (Some c) = (mkEnh (e_lst S') (e_buf S' ++ [c]), []))
  /\ (forall S' (ys : list (env * option ascii)),
        (forall y, In y ys -> forall c, snd y = Some c -> is_terminator c = false) ->
        snd (run_loop stdin_step S' ys) = []).
Proof.
  split; [|split; [|split]].
  - revert S. induction Hrs as [|[er r] [ex c] rs xs [Hfe [Hrc Hnl]] _ IH]; intro S;
      cbn [map app run_loop].
    + rewrite (device_step_enter et S rterm Ht). reflexivity.
    + cbn [fst snd] in *. subst er.
      assert (Hcr : c <> "013"%char).
      { destruct (record_char_spec r c Hrc) as [_ [_ [_ K]]].
        exact (keymap_no_cr _ (keycode_in _ _ K)). }
      rewrite (device_step_char ex S r c Hrc Hnl), (stdin_step_char ex S c Hnl Hcr).
      rewrite IH. reflexivity.
  - intros e S' c Hc. unfold is_terminator in Hc. simpl. rewrite Hc. reflexivity.
  - intros e S' c Hc. unfold is_terminator in Hc. simpl. rewrite Hc. reflexivity.
  - intros S' ys. revert S'. induction ys as [|[e y] ys IH]; intros S' Hys; simpl; [reflexivity|].
    assert (H1 : snd (stdin_step e S' y) = []).
    { destruct y as [c|]; [|reflexivity]. simpl.
      specialize (Hys (e, Some c) (or_introl eq_refl) c eq_refl). unfold is_terminator in Hys.
      rewrite Hys. reflexivity. }
    destruct (stdin_step e S' y) as [S1 e1]. simpl in H1. subst e1.
    specialize (IH S1 (fun y' Hy' => Hys y' (or_intror Hy'))).
    destruct (run_loop stdin_step S1 ys) as [S2 e2]. simpl in *. exact IH.
Qed.

Lemma C6_witness :
  run_loop stdin_step (mkEnh init_listener [])
    (map (fun x => (fst x, Some (snd x))) [(w_env 5, "1"%char); (w_env 5, "2"%char)]
       ++ [(w_env 5, Some "010"%char)])
  = run_loop device_step (mkEnh init_listener [])
      (map (fun r => (fst r, Some (snd r)))
         [(w_env 5, mk_record 0 0 1 2 1); (w_env 5, mk_record 0 0 1 3 1)]
       ++ [(w_env 5, Some (mk_record 0 0 1 28 1))]).
Proof.
  apply (C6_stdin_matches_device (mkEnh init_listener [])
           [(w_env 5, "1"%char); (w_env 5, "2"%char)]
           [(w_env 5, mk_record 0 0 1 2 1); (w_env 5, mk_record 0 0 1 3 1)]
           (w_env 5) (mk_record 0 0 1 28 1)).
  - repeat constructor; discriminate.
  - vm_compute. reflexivity.
Defined.

Lemma enh_terminate_state e S :
  e_buf (fst (enh_terminate e S)) = [] \/ fst (enh_terminate e S) = S.
Proof.
  unfold enh_terminate. destruct (truthy (strip (e_buf S))); [|right; reflexivity].
  destruct (process_scan _ _ _). left; reflexivity.
Qed.

Lemma app_one_neq (b : pystr) c : b <> b ++ [c].
Proof.
  intro H. apply (f_equal (@length ascii)) in H. rewrite length_app in H. simpl in H. lia.
Qed.

(** C7: a step of the device loop appends a character [c] to the buffer
    only for a complete record ([event_size] bytes) of type 1 and value 1
    whose code the keycode table maps to [c]; a partial read, a record of
    another type or value, and an unmapped code leave the loop state as it
    was (nothing of the record is kept) with no effect, so the loop goes on
    reading. *)
Theorem C7_device_filter (e : env) (S : enh) (rd : option (list byte)) :
  let '(S', effs) := device_step e S rd in
  (forall c, e_buf S' = e_buf S ++ [c] ->
     exists r, rd = Some r /\ length r = event_size
       /\ ev_type (unpack_event r) = 1 /\ ev_value (unpack_event r) = 1
       /\ In (ev_code (unpack_event r), c) keymap)
  /\ (forall r, rd = Some r ->
        (length r <> event_size \/ ev_type (unpack_event r) <> 1
         \/ ev_value (unpack_event r) <> 1
         \/ keycode_to_char (ev_code (unpack_event r)) = []) ->
        S' = S /\ effs = []).
Proof.
  destruct rd as [r|].
  - unfold device_step.
    destruct (Nat.eqb (length r) event_size) eqn:L;
      [|split; [intros c H; exfalso; exact (app_one_neq _ _ H)
               |intros r' Hr _; auto]].
    apply Nat.eqb_eq in L.
    destruct (ev_type (unpack_event r) =? 1) eqn:T;
      [|split; [intros c H; exfalso; exact (app_one_neq _ _ H)
               |intros r' Hr _; auto]].
    destruct (ev_value (unpack_event r) =? 1) eqn:V;
      [|split; [intros c H; exfalso; exact (app_one_neq _ _ H)
               |intros r' Hr _; auto]].
    apply Z.eqb_eq in T. apply Z.eqb_eq in V. simpl andb.
    destruct (keycode_to_char (ev_code (unpack_event r))) as [|c0 rest] eqn:K.
    + split; [intros c H; exfalso; exact (app_one_neq _ _ H) | intros r' Hr _; auto].
    + cbn [truthy].
      destruct (list_eq_dec ascii_dec (c0 :: rest) ["010"%char]) as [E|E].
      * pose proof (enh_terminate_state e S) as Hts.
        destruct (enh_terminate e S) as [S' effs]. cbn [fst] in Hts.
        split.
        -- intros c H. exfalso. destruct Hts as [Hts|Hts].
           ++ rewrite Hts in H. destruct (e_buf S); discriminate.
           ++ subst S'. exact (app_one_neq _ _ H).
        -- intros r' Hr' Hc. injection Hr' as <-.
           exfalso. destruct Hc as [Hc|[Hc|[Hc|Hc]]]; congruence.
      * split.
        -- intros c H. cbn [e_buf] in H. apply app_inv_head in H.
           rewrite H in K. exists r. split; [reflexivity|].
           split; [exact L|split; [exact T|split; [exact V|]]].
           exact (keycode_in _ _ K).
        -- intros r' Hr' Hc. injection Hr' as <-.
           exfalso. destruct Hc as [Hc|[Hc|[Hc|Hc]]]; congruence.
  - simpl. split; [intros c H; exfalso; exact (app_one_neq _ _ H) | intros r Hr; discriminate].
Qed.

Lemma C7_witness :
  device_step (w_env 0) (mkEnh init_listener (s2l "12")) (Some (firstn 20 (mk_record 0 0 1 2 1)))
  = (mkEnh init_listener (s2l "12"), []).
Proof.
  pose proof (C7_device_filter (w_env 0) (mkEnh init_listener (s2l "12"))
                (Some (firstn 20 (mk_record 0 0 1 2 1)))) as H.
  destruct (device_step _ _ _) as [S' effs] eqn:E.
  destruct H as [_ H]. destruct (H _ eq_refl) as [-> ->]; [|reflexivity].
  left. vm_compute. discriminate.
Defined.

Lemma C10_witness :
  is_valid_rfid (strip (s2l "               123456  ")) = true.
Proof.
  pose proof (proj1 C10_strip_before_validation init_listener (w_env 50)
                (s2l "               123456  ")) as H.
  assert (Hp : posts (snd (process_scan init_listener (w_env 50)
                             (s2l "               123456  "))) <> [])
    by (vm_compute; discriminate).
  destruct (process_scan init_listener (w_env 50) (s2l "               123456  "))
    as [L' effs].
  exact (proj2 H Hp).
Defined.

(** ** More of the listeners: helper lemmas *)

Lemma keymap_chars p : In p keymap -> digit_or_lower (snd p) = true \/ snd p = "010"%char.
Proof.
  intro H; simpl in H.
  repeat (destruct H as [<-|H]; [first [left; reflexivity | right; reflexivity]|]).
  destruct H.
Qed.

Lemma digit_or_lower_props c :
  digit_or_lower c = true ->
  py_isspace c = false /\ py_isalnum_char c = true /\ Ascii.eqb c " "%char = false.
Proof.
  destruct c as [[] [] [] [] [] [] [] []]; intro H; vm_compute in H;
    first [discriminate H | repeat split].
Qed.

Lemma lstrip_keep s : (forall c, In c s -> py_isspace c = false) -> lstrip s = s.
Proof.
  destruct s as [|c r]; intro H; simpl; [reflexivity|].
  rewrite (H c (or_introl eq_refl)). reflexivity.
Qed.

Lemma strip_clean s : forallb digit_or_lower s = true -> strip s = s.
Proof.
  intro H. rewrite forallb_forall in H.
  assert (Hs : forall c, In c s -> py_isspace c = false)
    by (intros c Hc; exact (proj1 (digit_or_lower_props c (H c Hc)))).
  unfold strip, rstrip. rewrite (lstrip_keep s Hs).
  rewrite lstrip_keep; [apply rev_involutive|].
  intros c Hc. apply Hs. apply in_rev. exact Hc.
Qed.

Lemma filter_keep {A : Type} (f : A -> bool) l :
  (forall x, In x l -> f x = true) -> filter f l = l.
Proof.
  induction l as [|x l IH]; intro H; simpl; [reflexivity|].
  rewrite (H x (or_introl eq_refl)). f_equal. apply IH. intros y Hy. exact (H y (or_intror Hy)).
Qed.

Lemma candidate_valid s :
  s <> [] -> forallb digit_or_lower s = true ->
  (is_valid_rfid s = true <-> (MIN_RFID_LENGTH <= length s <= MAX_RFID_LENGTH)%nat).
Proof.
  intros Hne H. rewrite is_valid_rfid_spec.
  pose proof H as H'. rewrite forallb_forall in H'.
  assert (Hr : remove_spaces s = s).
  { unfold remove_spaces. apply filter_keep. intros c Hc.
    rewrite (proj2 (proj2 (digit_or_lower_props c (H' c Hc)))). reflexivity. }
  rewrite Hr. split; [intros [Hl _]; exact Hl|]. intro Hl. split; [exact Hl|].
  split; [exact Hne|]. apply forallb_forall. intros c Hc.
  exact (proj1 (proj2 (digit_or_lower_props c (H' c Hc)))).
Qed.

Lemma keycode_cases k :
  keycode_to_char k = [] \/ exists c, keycode_to_char k = [c] /\ In (k, c) keymap.
Proof.
  destruct (keycode_to_char k) as [|c r] eqn:K; [left; reflexivity|right].
  unfold keycode_to_char in K.
  destruct (find (fun p => fst p =? k) keymap) as [[k' c']|] eqn:F; [|discriminate].
  injection K as <- <-. exists c'. split; [reflexivity|]. apply keycode_in.
  unfold keycode_to_char. rewrite F. reflexivity.
Qed.

Lemma enh_terminate_clean e S :
  forallb digit_or_lower (e_buf S) = true ->
  e_buf (fst (enh_terminate e S)) = []
  /\ scans (snd (enh_terminate e S)) = (if truthy (e_buf S) then [e_buf S] else []).
Proof.
  intro H. unfold enh_terminate. rewrite (strip_clean _ H).
  destruct (e_buf S) as [|x r] eqn:B; simpl.
  - rewrite B. split; reflexivity.
  - pose proof (proj1 (process_scan_quiet (e_lst S) e (x :: r))) as Hq.
    destruct (process_scan (e_lst S) e (x :: r)) as [L' eff]. simpl in Hq |- *.
    rewrite Hq. split; reflexivity.
Qed.

Lemma device_step_inv e S rd :
  forallb digit_or_lower (e_buf S) = true ->
  forallb digit_or_lower (e_buf (fst (device_step e S rd))) = true
  /\ (scans (snd (device_step e S rd)) = []
      \/ (scans (snd (device_step e S rd)) = [e_buf S] /\ e_buf S <> [])).
Proof.
  intro H. unfold device_step.
  destruct rd as [data|]; [|split; [exact H | left; reflexivity]].
  destruct (Nat.eqb (length data) event_size); [|split; [exact H | left; reflexivity]].
  destruct (_ && _); [|split; [exact H | left; reflexivity]].
  destruct (keycode_cases (ev_code (unpack_event data))) as [K|[c [K Hin]]];
    rewrite K; [split; [exact H | left; reflexivity]|].
  cbn [truthy].
  destruct (list_eq_dec ascii_dec [c] ["010"%char]) as [Hn|Hn].
  - destruct (enh_terminate_clean e S H) as [H1 H2]. rewrite H1, H2. split; [reflexivity|].
    destruct (e_buf S) as [|x r]; [left; reflexivity|right; split; [reflexivity|discriminate]].
  - cbn [fst snd e_buf]. split; [|left; reflexivity].
    rewrite forallb_app, H. simpl.
    destruct (keymap_chars _ Hin) as [Hc|Hc]; simpl in Hc; [rewrite Hc; reflexivity|].
    subst c. congruence.
Qed.

Lemma lstrip_ws_app ws b : forallb py_isspace ws = true -> lstrip (ws ++ b) = lstrip b.
Proof.
  induction ws as [|c ws IH]; simpl; [reflexivity|].
  intro H. apply andb_prop in H as [H1 H2]. rewrite H1. exact (IH H2).
Qed.

(** Two loop states that differ only by leading whitespace in the buffer. *)
Lemma stdin_residue_step e L ws b rd :
  forallb py_isspace ws = true ->
  snd (stdin_step e (mkEnh L (ws ++ b)) rd) = snd (stdin_step e (mkEnh L b) rd)
  /\ exists ws', forallb py_isspace ws' = true
     /\ fst (stdin_step e (mkEnh L (ws ++ b)) rd)
        = mkEnh (e_lst (fst (stdin_step e (mkEnh L b) rd)))
                (ws' ++ e_buf (fst (stdin_step e (mkEnh L b) rd))).
Proof.
  intro H. unfold stdin_step.
  destruct rd as [c|]; [|split; [reflexivity | exists ws; split; [exact H | reflexivity]]].
  destruct (Ascii.eqb c "010"%char || Ascii.eqb c "013"%char).
  - unfold enh_terminate. cbn [e_buf e_lst]. unfold strip.
    rewrite (lstrip_ws_app ws b H).
    destruct (truthy (rstrip (lstrip b))).
    + destruct (process_scan L e (rstrip (lstrip b))) as [L' eff].
      split; [reflexivity | exists []; split; reflexivity].
    + split; [reflexivity | exists ws; split; [exact H | reflexivity]].
  - cbn [e_buf e_lst fst snd]. rewrite <- app_assoc.
    split; [reflexivity | exists ws; split; [exact H | reflexivity]].
Qed.

Lemma stdin_residue_run L ws b ins :
  forallb py_isspace ws = true ->
  snd (run_loop stdin_step (mkEnh L (ws ++ b)) ins) = snd (run_loop stdin_step (mkEnh L b) ins)
  /\ e_lst (fst (run_loop stdin_step (mkEnh L (ws ++ b)) ins))
     = e_lst (fst (run_loop stdin_step (mkEnh L b) ins)).
Proof.
  revert L ws b; induction ins as [|[e rd] ins IH]; intros L ws b H; [split; reflexivity|].
  cbn [run_loop].
  destruct (stdin_residue_step e L ws b rd H) as [Hs [ws' [Hw Hf]]].
  destruct (stdin_step e (mkEnh L (ws ++ b)) rd) as [S1 eff1].
  destruct (stdin_step e (mkEnh L b) rd) as [[L2 b2] eff2].
  cbn [fst snd e_lst e_buf] in Hs, Hf. subst S1 eff1.
  destruct (IH L2 ws' b2 Hw) as [IH1 IH2].
  destruct (run_loop stdin_step (mkEnh L2 (ws' ++ b2)) ins) as [S3 e3].
  destruct (run_loop stdin_step (mkEnh L2 b2) ins) as [S4 e4].
  cbn [fst snd] in *. split; congruence.
Qed.

(** ** Extras: the read loops of [EnhancedRFIDListener] *)

(** The device loop only ever buffers digits and lower-case letters, so
    every candidate it hands to [process_scan] is a non-empty string of
    them (strip leaves it unchanged), and such a candidate is accepted by
    the validator exactly when its length is within 6..20. *)
Theorem device_loop_candidates (S : enh) (ins : list (env * option (list byte))) :
  forallb digit_or_lower (e_buf S) = true ->
  forallb digit_or_lower (e_buf (fst (run_loop device_step S ins))) = true
  /\ forall s, In s (scans (snd (run_loop device_step S ins))) ->
       s <> [] /\ forallb digit_or_lower s = true
       /\ (is_valid_rfid s = true <-> (MIN_RFID_LENGTH <= length s <= MAX_RFID_LENGTH)%nat).
Proof.
  revert S; induction ins as [|[e rd] ins IH]; intros S H.
  - split; [exact H | intros s []].
  - cbn [run_loop].
    destruct (device_step_inv e S rd H) as [H1 H2].
    destruct (device_step e S rd) as [S1 eff1]. cbn [fst snd] in H1, H2.
    destruct (IH S1 H1) as [IH1 IH2].
    destruct (run_loop device_step S1 ins) as [S2 eff2]. cbn [fst snd] in *.
    split; [exact IH1|]. intros s Hs. rewrite scans_app in Hs.
    apply in_app_or in Hs as [Hs|Hs]; [|exact (IH2 s Hs)].
    destruct H2 as [H2|[H2 Hne]]; rewrite H2 in Hs; [destruct Hs|].
    destruct Hs as [<-|[]].
    split; [exact Hne|split; [exact H|exact (candidate_valid _ Hne H)]].
Qed.

Lemma device_loop_candidates_witness :
  forallb digit_or_lower (e_buf (fst (run_loop device_step (mkEnh init_listener [])
     [(w_env 5, Some (mk_record 0 0 1 30 1)); (w_env 5, Some (mk_record 0 0 1 28 1))])))
  = true.
Proof.
  exact (proj1 (device_loop_candidates (mkEnh init_listener [])
                  [(w_env 5, Some (mk_record 0 0 1 30 1)); (w_env 5, Some (mk_record 0 0 1 28 1))]
                  eq_refl)).
Defined.

(** In the stdin loop, a terminator that finds only whitespace in the buffer
    hands nothing on and leaves that whitespace in the buffer; the leftover
    whitespace changes nothing afterwards: the effects and the listener state
    are those of a run that starts without it. *)
Theorem stdin_whitespace_residue (L : listener) (ws b : pystr)
    (ins : list (env * option ascii)) :
  forallb py_isspace ws = true ->
  (forall e c, is_terminator c = true ->
     stdin_step e (mkEnh L ws) (Some c) = (mkEnh L ws, []))
  /\ snd (run_loop stdin_step (mkEnh L (ws ++ b)) ins)
     = snd (run_loop stdin_step (mkEnh L b) ins)
  /\ e_lst (fst (run_loop stdin_step (mkEnh L (ws ++ b)) ins))
     = e_lst (fst (run_loop stdin_step (mkEnh L b) ins)).
Proof.
  intro H. split; [|exact (stdin_residue_run L ws b ins H)].
  intros e c Hc. unfold stdin_step. unfold is_terminator in Hc. rewrite Hc.
  unfold enh_terminate. cbn [e_buf]. unfold strip.
  rewrite <- (app_nil_r ws), (lstrip_ws_app ws [] H), app_nil_r. reflexivity.
Qed.

Lemma stdin_whitespace_residue_witness :
  stdin_step (w_env 0) (mkEnh init_listener [" "%char]) (Some "010"%char)
  = (mkEnh init_listener [" "%char], []).
Proof.
  apply (proj1 (stdin_whitespace_residue init_listener [" "%char] [] [] eq_refl)).
  reflexivity.
Defined.

(** ** Extras: decoding input events *)

Lemma byte_of_val n : Z.of_N (Byte.to_N (byte_of n)) = n mod 256.
Proof.
  unfold byte_of.
  assert (Hb : 0 <= n mod 256 < 256) by (apply Z.mod_pos_bound; lia).
  destruct (Byte.of_N (Z.to_N (n mod 256))) as [b|] eqn:E.
  - apply Byte.to_of_N in E. rewrite E. apply Z2N.id. lia.
  - apply Byte.of_N_None_iff in E. lia.
Qed.

Lemma le_value_bytes v k n :
  le_value (map (fun i => byte_of (Z.shiftr v (8 * Z.of_nat i))) (seq k n))
  = Z.shiftr v (8 * Z.of_nat k) mod 2 ^ (8 * Z.of_nat n).
Proof.
  revert k; induction n as [|n IH]; intro k.
  - simpl. rewrite Z.mod_1_r. reflexivity.
  - cbn [seq map le_value]. rewrite IH, byte_of_val.
    replace (8 * Z.of_nat (S n)) with (8 + 8 * Z.of_nat n) by lia.
    rewrite Z.pow_add_r by lia.
    rewrite (Z.rem_mul_r _ (2 ^ 8) (2 ^ (8 * Z.of_nat n))) by (try apply Z.pow_pos_nonneg; lia).
    rewrite <- Z.shiftr_div_pow2 by lia. rewrite Z.shiftr_shiftr by lia.
    replace (2 ^ 8) with 256 by reflexivity.
    replace (8 * Z.of_nat k + 8) with (8 * Z.of_nat (S k)) by lia. reflexivity.
Qed.

Lemma le_bytes_value n v : le_value (le_bytes n v) = v mod 2 ^ (8 * Z.of_nat n).
Proof. unfold le_bytes. rewrite le_value_bytes. simpl. rewrite Z.shiftr_0_r. reflexivity. Qed.

Lemma length_le_bytes n v : length (le_bytes n v) = n.
Proof. unfold le_bytes. rewrite length_map, length_seq. reflexivity. Qed.

Lemma skipn_app_len {A : Type} (pre l : list A) : skipn (length pre) (pre ++ l) = l.
Proof. induction pre; simpl; auto. Qed.

Lemma firstn_app_len {A : Type} (x l : list A) : firstn (length x) (x ++ l) = x.
Proof. induction x; simpl; f_equal; auto. Qed.

Lemma field_app off len pre x post :
  length pre = off -> length x = len -> field off len (pre ++ x ++ post) = le_value x.
Proof.
  intros <- <-. unfold field. rewrite skipn_app_len, firstn_app_len. reflexivity.
Qed.

Lemma signed64_mod v : -2 ^ 63 <= v < 2 ^ 63 -> signed64 (v mod 2 ^ 64) = v.
Proof.
  intro H. unfold signed64.
  destruct (Z_le_gt_dec 0 v) as [Hp|Hn].
  - rewrite Z.mod_small by lia. replace (v <? 2 ^ 63) with true by (symmetry; apply Z.ltb_lt; lia).
    reflexivity.
  - replace (v mod 2 ^ 64) with (v + 2 ^ 64).
    + replace (v + 2 ^ 64 <? 2 ^ 63) with false by (symmetry; apply Z.ltb_ge; lia). lia.
    + apply (Z.mod_unique v (2 ^ 64) (-1)); lia.
Qed.

(** [unpack_event] inverts the native little-endian [llHHI] layout: a
    record built from two signed 64-bit times, two unsigned 16-bit fields and
    an unsigned 32-bit value is [event_size] bytes long and decodes to
    exactly those five values. *)
Theorem unpack_event_roundtrip (sec usec ty cd val : Z) :
  -2 ^ 63 <= sec < 2 ^ 63 -> -2 ^ 63 <= usec < 2 ^ 63 ->
  0 <= ty < 2 ^ 16 -> 0 <= cd < 2 ^ 16 -> 0 <= val < 2 ^ 32 ->
  length (mk_record sec usec ty cd val) = event_size
  /\ unpack_event (mk_record sec usec ty cd val) = mkEvent sec usec ty cd val.
Proof.
  intros Hs Hu Ht Hc Hv. split.
  - unfold mk_record. rewrite !length_app, !length_le_bytes. reflexivity.
  - set (A := le_bytes 8 sec). set (B := le_bytes 8 usec). set (C := le_bytes 2 ty).
    set (D := le_bytes 2 cd). set (E := le_bytes 4 val).
    assert (LA : length A = 8%nat) by apply length_le_bytes.
    assert (LB : length B = 8%nat) by apply length_le_bytes.
    assert (LC : length C = 2%nat) by apply length_le_bytes.
    assert (LD : length D = 2%nat) by apply length_le_bytes.
    assert (LE : length E = 4%nat) by apply length_le_bytes.
    assert (F1 : field 0 8 (mk_record sec usec ty cd val) = le_value A)
      by exact (field_app 0 8 [] A (B ++ C ++ D ++ E) eq_refl LA).
    assert (F2 : field 8 8 (mk_record sec usec ty cd val) = le_value B)
      by exact (field_app 8 8 A B (C ++ D ++ E) LA LB).
    assert (F3 : field 16 2 (mk_record sec usec ty cd val) = le_value C).
    { replace (mk_record sec usec ty cd val) with ((A ++ B) ++ C ++ D ++ E)
        by (unfold mk_record; rewrite <- app_assoc; reflexivity).
      apply field_app; [rewrite length_app, LA, LB; reflexivity | exact LC]. }
    assert (F4 : field 18 2 (mk_record sec usec ty cd val) = le_value D).
    { replace (mk_record sec usec ty cd val) with ((A ++ B ++ C) ++ D ++ E)
        by (unfold mk_record; rewrite <- !app_assoc; reflexivity).
      apply field_app; [rewrite !length_app, LA, LB, LC; reflexivity | exact LD]. }
    assert (F5 : field 20 4 (mk_record sec usec ty cd val) = le_value E).
    { replace (mk_record sec usec ty cd val) with ((A ++ B ++ C ++ D) ++ E ++ [])
        by (unfold mk_record; rewrite app_nil_r, <- !app_assoc; reflexivity).
      apply field_app; [rewrite !length_app, LA, LB, LC, LD; reflexivity | exact LE]. }
    unfold unpack_event. rewrite F1, F2, F3, F4, F5.
    unfold A, B, C, D, E. rewrite !le_bytes_value.
    change (8 * Z.of_nat 8) with 64. change (8 * Z.of_nat 2) with 16.
    change (8 * Z.of_nat 4) with 32.
    rewrite (signed64_mod sec Hs), (signed64_mod usec Hu).
    rewrite !Z.mod_small by lia. reflexivity.
Qed.

Lemma unpack_event_roundtrip_witness :
  length (mk_record (-5) 123456 1 30 1) = event_size
  /\ unpack_event (mk_record (-5) 123456 1 30 1) = mkEvent (-5) 123456 1 30 1.
Proof. apply unpack_event_roundtrip; lia. Defined.

(** ** Extras: the registry split *)

Lemma split_blocks_aux_cons s acc : exists x l, split_blocks_aux s acc = x :: l.
Proof.
  revert acc; induction s as [|c r IH]; intro acc; [eexists; eexists; reflexivity|].
  destruct r as [|d r']; [eexists; eexists; reflexivity|].
  cbn [split_blocks_aux].
  destruct (Ascii.eqb c "010"%char && Ascii.eqb d "010"%char);
    [eexists; eexists; reflexivity | apply IH].
Qed.

Lemma split_blocks_aux_step c d r acc :
  split_blocks_aux (c :: d :: r) acc =
  if Ascii.eqb c "010"%char && Ascii.eqb d "010"%char
  then rev acc :: split_blocks_aux r []
  else split_blocks_aux (d :: r) (c :: acc).
Proof. reflexivity. Qed.

Lemma join_split_aux n s acc :
  (length s <= n)%nat -> join_blocks (split_blocks_aux s acc) = rev acc ++ s.
Proof.
  revert s acc; induction n as [|n IH]; intros s acc Hn.
  - destruct s; [|simpl in Hn; lia]. simpl. rewrite !app_nil_r. reflexivity.
  - destruct s as [|c r]; [simpl; rewrite !app_nil_r; reflexivity|].
    destruct r as [|d r'].
    + simpl. rewrite ?app_nil_r, <- ?app_assoc. reflexivity.
    + assert (H1 : (length r' <= n)%nat) by (simpl in Hn; lia).
      assert (H2 : (length (d :: r') <= n)%nat) by (simpl in Hn |- *; lia).
      rewrite split_blocks_aux_step.
      destruct (Ascii.eqb c "010"%char && Ascii.eqb d "010"%char) eqn:E.
      * apply andb_prop in E as [E1 E2].
        apply Ascii.eqb_eq in E1, E2. subst c d.
        destruct (split_blocks_aux_cons r' []) as [x [l Hx]].
        cbn [join_blocks]. rewrite Hx, <- Hx.
        rewrite (IH r' [] H1). reflexivity.
      * rewrite (IH (d :: r') (c :: acc) H2).
        simpl. rewrite <- app_assoc. reflexivity.
Qed.

(** [content.split('\n\n')] loses and adds nothing: joining the blocks
    back with blank lines gives the registry content again. *)
Theorem split_blocks_roundtrip (s : pystr) : join_blocks (split_blocks s) = s.
Proof. unfold split_blocks. rewrite (join_split_aux (length s) s [] (le_n _)). reflexivity. Qed.

(** ** Extras: the Device Locator and the strategy selection *)

Lemma first_some_some {A B : Type} (f : A -> option B) l y :
  first_some f l = Some y -> exists x, In x l /\ f x = Some y.
Proof.
  induction l as [|x l IH]; simpl; [discriminate|].
  destruct (f x) as [z|] eqn:F.
  - intro H. injection H as <-. exists x. auto.
  - intro H. destruct (IH H) as [x' [Hin Hx]]. exists x'. auto.
Qed.

(** A device path returned by the locator comes from one of its two
    methods: either [/dev/input/] followed by the first event handler of a
    registry block that matches a signature, or the resolved target of a
    [/dev/input/by-id/] entry that matches a signature; in both cases the
    path was checked to exist. *)
Theorem find_rfid_device_result (re_search : pystr -> pystr -> bool)
    (find_handlers : pystr -> list pystr) (fs : sysfs) (p : pystr) :
  find_rfid_device re_search find_handlers fs = Ret (Some p) ->
  (exists content block pattern h hs,
     registry fs = Some content /\ In block (split_blocks content)
     /\ In pattern RFID_READER_PATTERNS /\ re_search pattern block = true
     /\ find_handlers block = h :: hs
     /\ p = s2l "/dev/input/" ++ h /\ path_exists fs p = true)
  \/ (exists links link pattern,
        by_id_exists fs = true /\ by_id_listing fs = Some links /\ In link links
        /\ In pattern RFID_READER_PATTERNS /\ re_search pattern link = true
        /\ path_exists fs (s2l "/dev/input/by-id/" ++ link) = true
        /\ p = realpath fs (s2l "/dev/input/by-id/" ++ link)).
Proof.
  unfold find_rfid_device.
  destruct (registry fs) as [content|] eqn:Hr.
  - destruct (first_some (block_device re_search find_handlers fs) (split_blocks content))
      as [p1|] eqn:H1.
    + intro H. injection H as <-. left.
      destruct (first_some_some _ _ _ H1) as [block [Hb Hbd]].
      unfold block_device in Hbd.
      destruct (first_some_some _ _ _ Hbd) as [pattern [Hp Hpat]].
      destruct (re_search pattern block) eqn:Hre; [|discriminate].
      destruct (find_handlers block) as [|h hs] eqn:Hh; [discriminate|].
      destruct (path_exists fs (s2l "/dev/input/" ++ h)) eqn:Hex; [|discriminate].
      injection Hpat as <-.
      exists content, block, pattern, h, hs. repeat split; assumption.
    + destruct (by_id_exists fs) eqn:Hb; [|discriminate].
      destruct (by_id_listing fs) as [links|] eqn:Hl; [|discriminate].
      destruct (first_some (link_device re_search fs) links) as [p2|] eqn:H2; [|discriminate].
      intro H. injection H as <-. right.
      destruct (first_some_some _ _ _ H2) as [link [Hk Hld]].
      unfold link_device in Hld.
      destruct (first_some_some _ _ _ Hld) as [pattern [Hp Hpat]].
      destruct (re_search pattern link) eqn:Hre; [|discriminate].
      destruct (path_exists fs (s2l "/dev/input/by-id/" ++ link)) eqn:Hex; [|discriminate].
      injection Hpat as <-.
      exists links, link, pattern. repeat split; assumption.
  - destruct (by_id_exists fs) eqn:Hb; [|discriminate].
    destruct (by_id_listing fs) as [links|] eqn:Hl; [|discriminate].
    destruct (first_some (link_device re_search fs) links) as [p2|] eqn:H2; [|discriminate].
    intro H. injection H as <-. right.
    destruct (first_some_some _ _ _ H2) as [link [Hk Hld]].
    unfold link_device in Hld.
    destruct (first_some_some _ _ _ Hld) as [pattern [Hp Hpat]].
    destruct (re_search pattern link) eqn:Hre; [|discriminate].
    destruct (path_exists fs (s2l "/dev/input/by-id/" ++ link)) eqn:Hex; [|discriminate].
    injection Hpat as <-.
    exists links, link, pattern. repeat split; assumption.
Qed.

Lemma find_rfid_device_result_witness :
  exists content block pattern h hs,
    registry w_sys = Some content /\ In block (split_blocks content)
    /\ In pattern RFID_READER_PATTERNS /\ (fun _ _ => true) pattern block = true
    /\ (fun _ => [s2l "event3"]) block = h :: hs
    /\ s2l "/dev/input/event3" = s2l "/dev/input/" ++ h
    /\ path_exists w_sys (s2l "/dev/input/event3") = true.
Proof.
  destruct (find_rfid_device_result (fun _ _ => true) (fun _ => [s2l "event3"]) w_sys
              (s2l "/dev/input/event3") eq_refl)
    as [H|[links [link [pattern [Hb _]]]]]; [exact H | discriminate Hb].
Defined.

(** The locator, and with it [start_listening], raises exactly when the
    registry yields no device, the by-id directory exists and listing it
    raises: every other failure is caught or ends in [None]. *)
Theorem start_listening_raise (re_search : pystr -> pystr -> bool)
    (find_handlers : pystr -> list pystr) (fs : sysfs) (probe : pystr -> probe_io) :
  (start_listening re_search find_handlers fs probe = Raise
   <-> find_rfid_device re_search find_handlers fs = Raise)
  /\ (find_rfid_device re_search find_handlers fs = Raise
      <-> (forall content, registry fs = Some content ->
             first_some (block_device re_search find_handlers fs) (split_blocks content) = None)
          /\ by_id_exists fs = true /\ by_id_listing fs = None).
Proof.
  split.
  - unfold start_listening.
    destruct (find_rfid_device re_search find_handlers fs) as [[p|]|].
    + destruct (truthy p); [destruct (fst (test_device_input (probe p)))|];
        split; discriminate.
    + split; discriminate.
    + split; reflexivity.
  - unfold find_rfid_device.
    assert (Hm : (forall content, registry fs = Some content ->
                    first_some (block_device re_search find_handlers fs) (split_blocks content)
                    = None)
                 <-> match registry fs with
                     | Some content =>
                         first_some (block_device re_search find_handlers fs) (split_blocks content)
                     | None => None
                     end = None).
    { destruct (registry fs) as [content|]; split.
      - intro H. exact (H content eq_refl).
      - intros H c Hc. injection Hc as <-. exact H.
      - reflexivity.
      - intros _ c Hc. discriminate Hc. }
    rewrite Hm.
    destruct (match registry fs with
              | Some content =>
                  first_some (block_device re_search find_handlers fs) (split_blocks content)
              | None => None
              end) as [p|].
    + split; [intro H; discriminate H | intros [H _]; discriminate H].
    + destruct (by_id_exists fs); [|split; [intro H; discriminate H | intros [_ [H _]]; discriminate H]].
      destruct (by_id_listing fs) as [links|];
        [|split; [intros _; repeat split | intros _; reflexivity]].
      destruct (first_some (link_device re_search fs) links);
        split; (intro H; discriminate H) || (intros [_ [_ H]]; discriminate H).
Qed.

(** A device found by method 1 is returned whatever the by-id directory
    holds: the second method, and the exception its listing can raise, are
    reached only when the registry yields nothing. *)
Theorem find_rfid_device_method1_first (re_search : pystr -> pystr -> bool)
    (find_handlers : pystr -> list pystr) (fs : sysfs) (content p : pystr) :
  registry fs = Some content ->
  first_some (block_device re_search find_handlers fs) (split_blocks content) = Some p ->
  forall b l,
    find_rfid_device re_search find_handlers
      (mkSys (registry fs) b l (path_exists fs) (realpath fs)) = Ret (Some p).
Proof.
  intros Hr H1 b l. unfold find_rfid_device. cbn [registry]. rewrite Hr.
  unfold block_device in *. cbn [path_exists]. rewrite H1. reflexivity.
Qed.

Lemma find_rfid_device_method1_first_witness :
  find_rfid_device (fun _ _ => true) (fun _ => [s2l "event3"])
    (mkSys (registry w_sys) true None (path_exists w_sys) (realpath w_sys))
  = Ret (Some (s2l "/dev/input/event3")).
Proof.
  apply (find_rfid_device_method1_first (fun _ _ => true) (fun _ => [s2l "event3"]) w_sys
           (s2l "I: Bus=0011
N: Name=AT keyboard
H: Handlers=kbd event0")); reflexivity.
Defined.

(** Every run of [start_listening] probes at most one path, the one the
    locator returned; it reads from that device only when the probe opened
    it, found it ready and read data from it, and otherwise reads stdin. *)
Theorem start_listening_outcomes (re_search : pystr -> pystr -> bool)
    (find_handlers : pystr -> list pystr) (fs : sysfs) (probe : pystr -> probe_io) :
  match start_listening re_search find_handlers fs probe with
  | Raise => find_rfid_device re_search find_handlers fs = Raise
  | Ret (DeviceRead q, probed) =>
      find_rfid_device re_search find_handlers fs = Ret (Some q) /\ probed = [q]
      /\ p_open (probe q) = OpenOk /\ p_ready (probe q) = true /\ p_data (probe q) <> []
  | Ret (StdinRead, probed) =>
      probed = []
      \/ exists q, probed = [q] /\ find_rfid_device re_search find_handlers fs = Ret (Some q)
         /\ fst (test_device_input (probe q)) <> PTrue
  end.
Proof.
  unfold start_listening.
  destruct (find_rfid_device re_search find_handlers fs) as [[p|]|] eqn:F; [|left; reflexivity|reflexivity].
  destruct (truthy p); [|left; reflexivity].
  destruct (fst (test_device_input (probe p))) eqn:T.
  - unfold test_device_input in T.
    destruct (p_open (probe p)) eqn:O; try discriminate.
    destruct (p_ready (probe p)) eqn:R; [|discriminate].
    destruct (p_data (probe p)) as [|x r] eqn:D; [discriminate|].
    repeat split; try assumption. discriminate.
  - right. exists p. split; [reflexivity|split; [reflexivity|try rewrite T; discriminate]].
  - right. exists p. split; [reflexivity|split; [reflexivity|try rewrite T; discriminate]].
Qed.

(** ** Extras: what [process_scan] sends *)

Lemma filter_In_keep {A : Type} (f : A -> bool) x l : In x l -> f x = true -> In x (filter f l).
Proof. intros H1 H2. apply filter_In. auto. Qed.

(** Every identifier [process_scan] posts goes to [FLASK_URL] with a
    five-second timeout, is the stripped input, has 6..20 characters, each
    alphanumeric or a space, and begins and ends with an alphanumeric
    character. *)
Theorem posted_rfid_shape (L : listener) (e : env) (d : pystr) (u r : pystr) (t : Z) :
  In (u, r, t) (posts (snd (process_scan L e d))) ->
  u = flask_url /\ t = 5 /\ r = strip d
  /\ (MIN_RFID_LENGTH <= length r <= MAX_RFID_LENGTH)%nat
  /\ (forall c, In c r -> py_isalnum_char c = true \/ c = " "%char)
  /\ (exists c rest, r = c :: rest /\ py_isalnum_char c = true)
  /\ (exists init c, r = init ++ [c] /\ py_isalnum_char c = true).
Proof.
  destruct (process_scan_cases L e d) as [[_ H]|[[_ [_ H]]|[V [_ H]]]]; rewrite H;
    cbn [snd posts]; [intros []|intros []|].
  rewrite posts_app. destruct (handle_response_quiet (resp e)) as [_ [Hp _]].
  rewrite Hp. cbn [posts app]. intros [Heq|[]]. injection Heq as <- <- <-.
  apply is_valid_rfid_spec in V as [Hl [_ Ha]].
  rewrite forallb_forall in Ha.
  assert (Hc : forall c, In c (strip d) -> py_isalnum_char c = true \/ c = " "%char).
  { intros c Hin. destruct (Ascii.eqb c " "%char) eqn:E.
    - right. apply Ascii.eqb_eq. exact E.
    - left. apply Ha. unfold remove_spaces. apply filter_In_keep; [exact Hin|].
      rewrite E. reflexivity. }
  assert (Hsp : py_isspace " "%char = true) by reflexivity.
  split; [reflexivity|split; [reflexivity|split; [reflexivity|split; [exact Hl|split; [exact Hc|]]]]].
  split.
  - destruct (strip d) as [|c rest] eqn:S; [simpl in Hl; unfold MIN_RFID_LENGTH in Hl; lia|].
    exists c, rest. split; [reflexivity|].
    destruct (Hc c (or_introl eq_refl)) as [Hc1|Hc1]; [exact Hc1|].
    pose proof (strip_head d c rest S) as Hh. subst c. congruence.
  - destruct (exists_last (l := strip d)) as [init [c S]].
    { intro E. rewrite E in Hl. simpl in Hl. unfold MIN_RFID_LENGTH in Hl. lia. }
    exists init, c. split; [exact S|].
    destruct (Hc c) as [Hc1|Hc1]; [rewrite S; apply in_or_app; right; left; reflexivity| exact Hc1|].
    pose proof (strip_last d c init S) as Hh. subst c. congruence.
Qed.

Lemma posted_rfid_shape_witness :
  flask_url = flask_url /\ 5 = 5 /\ s2l "ab 1234" = strip (s2l "  ab 1234
")
  /\ (MIN_RFID_LENGTH <= length (s2l "ab 1234") <= MAX_RFID_LENGTH)%nat
  /\ (forall c, In c (s2l "ab 1234") -> py_isalnum_char c = true \/ c = " "%char)
  /\ (exists c rest, s2l "ab 1234" = c :: rest /\ py_isalnum_char c = true)
  /\ (exists init c, s2l "ab 1234" = init ++ [c] /\ py_isalnum_char c = true).
Proof.
  apply (posted_rfid_shape (mkListener 0) (w_env 10) (s2l "  ab 1234
") flask_url (s2l "ab 1234") 5).
  vm_compute. left. reflexivity.
Defined.

(** ** The Flask application: helper lemmas *)

Lemma pystr_eqb_eq a b : pystr_eqb a b = true <-> a = b.
Proof. unfold pystr_eqb. destruct (list_eq_dec ascii_dec a b); split; congruence. Qed.

Lemma pystr_eqb_neq a b : pystr_eqb a b = false <-> a <> b.
Proof. unfold pystr_eqb. destruct (list_eq_dec ascii_dec a b); split; congruence. Qed.

Lemma pystr_eqb_refl a : pystr_eqb a a = true.
Proof. apply pystr_eqb_eq. reflexivity. Qed.

Lemma get_mapping_some t k m : get_mapping t k = Some m -> In m t /\ r_rfid m = k.
Proof.
  unfold get_mapping. intro H. apply find_some in H as [Hin Hk].
  apply pystr_eqb_eq in Hk. auto.
Qed.

Lemma get_mapping_none t k : get_mapping t k = None <-> ~ In k (keys t).
Proof.
  unfold get_mapping, keys. induction t as [|r t IH]; simpl; [tauto|].
  destruct (pystr_eqb (r_rfid r) k) eqn:E.
  - apply pystr_eqb_eq in E. split; [discriminate | intro H; exfalso; auto].
  - apply pystr_eqb_neq in E. rewrite IH. split; [intros H [H'|H']; auto | auto].
Qed.

(** Updating the rows with key [k] by a function that keeps the key. *)
Lemma get_mapping_map_key t k k' (g : row -> row) :
  (forall r, r_rfid (g r) = r_rfid r) ->
  get_mapping (map (fun r => if pystr_eqb (r_rfid r) k then g r else r) t) k'
  = if pystr_eqb k' k then option_map g (get_mapping t k') else get_mapping t k'.
Proof.
  intro Hg. unfold get_mapping. induction t as [|r t IH]; simpl.
  - destruct (pystr_eqb k' k); reflexivity.
  - destruct (pystr_eqb (r_rfid r) k) eqn:E1; simpl.
    + rewrite Hg. apply pystr_eqb_eq in E1. subst k.
      destruct (pystr_eqb (r_rfid r) k') eqn:E2.
      * apply pystr_eqb_eq in E2. subst k'. rewrite pystr_eqb_refl. reflexivity.
      * apply pystr_eqb_neq in E2. rewrite IH.
        replace (pystr_eqb k' (r_rfid r)) with false
          by (symmetry; apply pystr_eqb_neq; congruence). reflexivity.
    + destruct (pystr_eqb (r_rfid r) k') eqn:E2.
      * apply pystr_eqb_eq in E2. subst k'. rewrite E1. reflexivity.
      * exact IH.
Qed.

Lemma keys_map_key t k (g : row -> row) :
  (forall r, r_rfid (g r) = r_rfid r) ->
  keys (map (fun r => if pystr_eqb (r_rfid r) k then g r else r) t) = keys t.
Proof.
  intro Hg. unfold keys. induction t as [|r t IH]; simpl; [reflexivity|].
  rewrite IH. destruct (pystr_eqb (r_rfid r) k); [rewrite Hg|]; reflexivity.
Qed.

Lemma get_mapping_delete t k k' :
  get_mapping (delete_mapping t k) k' = if pystr_eqb k' k then None else get_mapping t k'.
Proof.
  unfold get_mapping, delete_mapping. induction t as [|r t IH]; simpl.
  - destruct (pystr_eqb k' k); reflexivity.
  - destruct (pystr_eqb (r_rfid r) k) eqn:E1; simpl.
    + apply pystr_eqb_eq in E1. subst k. rewrite IH.
      destruct (pystr_eqb k' (r_rfid r)) eqn:E2; [reflexivity|].
      replace (pystr_eqb (r_rfid r) k') with false
        by (symmetry; apply pystr_eqb_neq; apply pystr_eqb_neq in E2; congruence).
      reflexivity.
    + destruct (pystr_eqb (r_rfid r) k') eqn:E2.
      * apply pystr_eqb_eq in E2. subst k'. rewrite E1. reflexivity.
      * exact IH.
Qed.

Lemma get_mapping_snoc t x k :
  get_mapping (t ++ [x]) k
  = match get_mapping t k with
    | Some y => Some y
    | None => if pystr_eqb (r_rfid x) k then Some x else None
    end.
Proof.
  unfold get_mapping. induction t as [|r t IH]; simpl; [reflexivity|].
  destruct (pystr_eqb (r_rfid r) k); [reflexivity | exact IH].
Qed.

Lemma NoDup_keys_filter (p : row -> bool) t : NoDup (keys t) -> NoDup (keys (filter p t)).
Proof.
  unfold keys. induction t as [|r t IH]; simpl; intro H; [constructor|].
  inversion H as [|? ? Hn Hd]; subst.
  destruct (p r); simpl; [|exact (IH Hd)].
  constructor; [|exact (IH Hd)].
  intro Hin. apply Hn. apply in_map_iff in Hin as [y [Hy Hin]].
  apply filter_In in Hin as [Hin _]. rewrite <- Hy. apply in_map. exact Hin.
Qed.

Lemma NoDup_keys_snoc t x : NoDup (keys t) -> ~ In (r_rfid x) (keys t) -> NoDup (keys (t ++ [x])).
Proof.
  unfold keys. rewrite map_app. simpl. intros H Hn.
  apply NoDup_app; [exact H | constructor; [intros []|constructor] |].
  intros y Hy [<-|[]]. exact (Hn Hy).
Qed.

Lemma strip_idem s : strip (strip s) = strip s.
Proof.
  destruct (strip s) as [|c rest] eqn:S; [reflexivity|].
  pose proof (strip_head s c rest S) as Hh.
  destruct (exists_last (l := c :: rest)) as [init [c' E]]; [discriminate|].
  rewrite <- S in E. pose proof (strip_last s c' init E) as Hl. rewrite S in E.
  unfold strip, rstrip. cbn [lstrip]. rewrite Hh. rewrite E, rev_app_distr. cbn [rev app lstrip].
  rewrite Hl. cbn [rev]. rewrite rev_involutive. reflexivity.
Qed.

Lemma posted_valid L e d u r t :
  In (u, r, t) (posts (snd (process_scan L e d))) ->
  u = flask_url /\ t = 5 /\ r = strip d /\ is_valid_rfid (strip d) = true.
Proof.
  destruct (process_scan_cases L e d) as [[_ H]|[[_ [_ H]]|[V [_ H]]]]; rewrite H;
    cbn [snd posts]; [intros []|intros []|].
  rewrite posts_app. destruct (handle_response_quiet (resp e)) as [_ [Hp _]].
  rewrite Hp. cbn [posts app]. intros [Heq|[]]. injection Heq as <- <- <-. auto.
Qed.

(** ** Extras: [handle_scan] *)

Lemma getitem_rfid_some data v :
  getitem_rfid data = Some v -> json_truthy data = true /\ rfid_in data = Some true.
Proof.
  destruct data as [| | | | |kvs]; try discriminate. simpl.
  destruct (find _ (rev kvs)) as [[k v']|] eqn:F; [|discriminate]. intros _.
  apply find_some in F as [Hin Hk]. apply in_rev in Hin.
  split; [destruct kvs; [destruct Hin|reflexivity]|].
  f_equal. apply existsb_exists. exists (k, v'). split; [exact Hin|exact Hk].
Qed.

(** [handle_scan] on the parsed body [data]: it answers 400, changing
    nothing, exactly when [data] is falsy, is truthy without ['rfid'] (as a
    key, a list element or a substring), or is an object whose ['rfid'] is a
    string that strips to the empty string; it raises (a 500 answer) exactly
    when [data] is truthy and the test ['rfid' not in data] raises (a number
    or [True]), or ['rfid'] is in it but [data['rfid']] is not a string (a
    list or a string containing ['rfid'], an object whose ['rfid'] is not a
    string). The listener's body [{"rfid": r}] gets to the [strip]. *)
Theorem handle_scan_400 (now : Q) (pb : response) (A : app_state) (data : json) :
  (handle_scan now pb A (scan_body_of data) = Ret (A, SR400, [])
   <-> json_truthy data = false
       \/ (json_truthy data = true /\ rfid_in data = Some false)
       \/ exists s, getitem_rfid data = Some (JsStr s) /\ strip s = [])
  /\ (handle_scan now pb A (scan_body_of data) = Raise
      <-> json_truthy data = true
          /\ (rfid_in data = None
              \/ (rfid_in data = Some true /\ forall s, getitem_rfid data <> Some (JsStr s))))
  /\ (forall A' eff, handle_scan now pb A (scan_body_of data) = Ret (A', SR400, eff) ->
        A' = A /\ eff = [])
  /\ (forall r, scan_body_of (JsObj [(rfid_key, JsStr r)]) = BRfid (JStr r)).
Proof.
  assert (Hstr : forall s, (strip s = [] /\ handle_scan now pb A (BRfid (JStr s)) = Ret (A, SR400, []))
                           \/ handle_scan now pb A (BRfid (JStr s)) <> Raise
                               /\ (forall A' eff, handle_scan now pb A (BRfid (JStr s))
                                                   <> Ret (A', SR400, eff))
                               /\ strip s <> []).
  { intro s. cbn [handle_scan]. destruct (strip s) as [|c r]; cbn [truthy negb]; [left; split; reflexivity|].
    right. destruct (get_mapping (db A) (c :: r)) as [m|].
    - destruct (trigger_playback pb (c :: r)) as [ok eff].
      split; [discriminate|split; [intros A' eff' H; discriminate H|discriminate]].
    - split; [discriminate|split; [intros A' eff' H; discriminate H|discriminate]]. }
  split; [|split; [|split]].
  - unfold scan_body_of. destruct (json_truthy data) eqn:T; cbn [negb].
    + destruct (rfid_in data) as [[|]|] eqn:I.
      * destruct (getitem_rfid data) as [v|] eqn:G.
        -- destruct v as [| | |s| |]; cbn [jval_of];
             try (split; [discriminate|];
                  intros [H|[[_ H]|[s' [H _]]]]; discriminate).
           destruct (Hstr s) as [[Hs H]|[_ [H Hs]]].
           ++ rewrite H. split; [intros _|reflexivity]. right; right. exists s.
              split; [reflexivity|exact Hs].
           ++ split; [intro H'; exfalso; exact (H _ _ H')|].
              intros [H'|[[_ H']|[s' [H' Hs']]]]; try discriminate.
              injection H' as <-. congruence.
        -- split; [discriminate|]. intros [H|[[_ H]|[s' [H _]]]]; discriminate.
      * split; [intros _; right; left; split; reflexivity|reflexivity].
      * split; [discriminate|]. intros [H|[[_ H]|[s' [H _]]]]; try discriminate.
        apply getitem_rfid_some in H as [_ H]. congruence.
    + split; [intros _; left; reflexivity|reflexivity].
  - unfold scan_body_of. destruct (json_truthy data) eqn:T; cbn [negb].
    + destruct (rfid_in data) as [[|]|] eqn:I.
      * destruct (getitem_rfid data) as [v|] eqn:G.
        -- destruct v as [| | |s| |]; cbn [jval_of];
             try (split; [intros _; split; [reflexivity|right; split;
                            [reflexivity|intros s' H; discriminate H]]|reflexivity]).
           destruct (Hstr s) as [[_ H]|[H _]].
           ++ rewrite H. split; [discriminate|].
              intros [_ [H'|[_ H']]]; [discriminate|]. exfalso. exact (H' s eq_refl).
           ++ split; [intro H'; exfalso; exact (H H')|].
              intros [_ [H'|[_ H']]]; [discriminate|]. exfalso. exact (H' s eq_refl).
        -- split; [intros _; split; [reflexivity|right; split;
                     [reflexivity|intros s' H; discriminate H]]|reflexivity].
      * split; [discriminate|]. intros [_ [H|[H _]]]; discriminate.
      * split; [intros _; split; [reflexivity|left; reflexivity]|reflexivity].
    + split; [discriminate|]. intros [H _]; discriminate.
  - intros A' eff. unfold scan_body_of.
    destruct (negb (json_truthy data)); [cbn [handle_scan]; intro H; injection H as <- <-; auto|].
    destruct (rfid_in data) as [[|]|]; [|cbn [handle_scan]; intro H; injection H as <- <-; auto
                                        |discriminate].
    destruct (getitem_rfid data) as [[| | |s| |]|]; cbn [jval_of]; try discriminate.
    destruct (Hstr s) as [[_ H]|[_ [H _]]].
    + rewrite H. intro H'. injection H' as <- <-. auto.
    + intro H'. exfalso. exact (H _ _ H').
  - intro r. reflexivity.
Qed.

(** A scan that [handle_scan] accepts touches only the scanned key: a mapped
    identifier gets [last_played] set to the time of the request, every other
    lookup and the queue stay as they were, and the identifier is posted once
    to the playback host; an unmapped identifier leaves the table as it was,
    is appended to the queue and nothing is sent. *)
Theorem handle_scan_effects (now : Q) (pb : response) (A : app_state) (s : pystr)
    (A' : app_state) (reply : scan_reply) (eff : list effect) :
  handle_scan now pb A (BRfid (JStr s)) = Ret (A', reply, eff) -> reply <> SR400 ->
  (forall k, k <> strip s -> get_mapping (db A') k = get_mapping (db A) k)
  /\ match get_mapping (db A) (strip s) with
     | Some m =>
         get_mapping (db A') (strip s)
         = Some (mkRow (r_rfid m) (r_music_dir m) (r_album_title m) (r_artist m)
                       (r_cover_path m) (r_created_at m) (Some now))
         /\ rfid_queue A' = rfid_queue A /\ posts eff = [(macos_play_url, strip s, 5)]
     | None =>
         db A' = db A /\ rfid_queue A' = rfid_queue A ++ [strip s] /\ eff = []
     end.
Proof.
  cbn [handle_scan]. intros H Hr.
  destruct (truthy (strip s)); cbn [negb] in H; [|injection H as _ <- _; congruence].
  destruct (get_mapping (db A) (strip s)) as [m|] eqn:G.
  - unfold trigger_playback in H. injection H as <- <- <-. cbn [db rfid_queue].
    unfold update_last_played.
    split.
    + intros k Hk. rewrite get_mapping_map_key by reflexivity.
      replace (pystr_eqb k (strip s)) with false by (symmetry; apply pystr_eqb_neq; exact Hk).
      reflexivity.
    + rewrite get_mapping_map_key by reflexivity. rewrite pystr_eqb_refl, G.
      split; [reflexivity | split; reflexivity].
  - injection H as <- <- <-. cbn [db rfid_queue]. split; [reflexivity|auto].
Qed.

Lemma handle_scan_effects_witness :
  let A := mkApp [mkRow (s2l "abc123") (s2l "/home/music/x") None None None 0%Q None] [] in
  (forall k, k <> strip (s2l "abc123") ->
     get_mapping (db (mkApp (update_last_played 7%Q (db A) (s2l "abc123")) [])) k
     = get_mapping (db A) k)
  /\ match get_mapping (db A) (strip (s2l "abc123")) with
     | Some m =>
         get_mapping (db (mkApp (update_last_played 7%Q (db A) (s2l "abc123")) []))
           (strip (s2l "abc123"))
         = Some (mkRow (r_rfid m) (r_music_dir m) (r_album_title m) (r_artist m)
                       (r_cover_path m) (r_created_at m) (Some 7%Q))
         /\ rfid_queue (mkApp (update_last_played 7%Q (db A) (s2l "abc123")) []) = rfid_queue A
         /\ posts [EPost macos_play_url (s2l "abc123") 5]
            = [(macos_play_url, strip (s2l "abc123"), 5)]
     | None =>
         db (mkApp (update_last_played 7%Q (db A) (s2l "abc123")) []) = db A
         /\ rfid_queue (mkApp (update_last_played 7%Q (db A) (s2l "abc123")) [])
            = rfid_queue A ++ [strip (s2l "abc123")]
         /\ [EPost macos_play_url (s2l "abc123") 5] = []
     end.
Proof.
  intro A.
  apply (handle_scan_effects 7%Q (RStatus 200 None) A (s2l "abc123")
           (mkApp (update_last_played 7%Q (db A) (s2l "abc123")) [])
           (SRMapped (s2l "abc123") (s2l "/home/music/x") None None true)
           [EPost macos_play_url (s2l "abc123") 5]).
  - vm_compute. reflexivity.
  - discriminate.
Defined.

(** An identifier the listener posts reaches [handle_scan] unchanged by its
    second strip, is never answered 400, is looked up as it is, and the
    answer is one the listener handles without logging an error. *)
Theorem listener_app_accepts (L : listener) (e : env) (d : pystr) (u r : pystr) (t : Z)
    (now : Q) (pb : response) (A : app_state) :
  In (u, r, t) (posts (snd (process_scan L e d))) ->
  strip r = r
  /\ (exists A' reply eff,
        handle_scan now pb A (BRfid (JStr r)) = Ret (A', reply, eff)
        /\ (reply = SRUnmapped r
            \/ exists md al ar ok, reply = SRMapped r md al ar ok))
  /\ ~ In (ELog Error) (handle_response (scan_http (handle_scan now pb A (BRfid (JStr r))))).
Proof.
  intro H. destruct (posted_valid L e d u r t H) as [_ [_ [-> V]]].
  assert (Hs : strip (strip d) = strip d) by apply strip_idem.
  assert (Hne : truthy (strip d) = true).
  { destruct (strip d); [discriminate V | reflexivity]. }
  cbn [handle_scan]. rewrite Hs, Hne. cbn [negb].
  split; [reflexivity|].
  destruct (get_mapping (db A) (strip d)) as [m|].
  - unfold trigger_playback. split.
    + do 3 eexists. split; [reflexivity|]. right. do 4 eexists. reflexivity.
    + cbn [scan_http handle_response]. rewrite Z.eqb_refl.
      destruct (match pb with RTransportError => false | RStatus st _ => st =? 200 end);
        simpl; intros [H1|[H1|[]]]; discriminate H1.
  - split.
    + do 3 eexists. split; [reflexivity|]. left. reflexivity.
    + cbn [scan_http handle_response]. rewrite Z.eqb_refl. simpl.
      intros [H1|[]]; discriminate H1.
Qed.

Lemma listener_app_accepts_witness :
  strip (s2l "ab 1234") = s2l "ab 1234"
  /\ (exists A' reply eff,
        handle_scan 10%Q RTransportError (mkApp [] []) (BRfid (JStr (s2l "ab 1234")))
        = Ret (A', reply, eff)
        /\ (reply = SRUnmapped (s2l "ab 1234")
            \/ exists md al ar ok, reply = SRMapped (s2l "ab 1234") md al ar ok))
  /\ ~ In (ELog Error)
       (handle_response (scan_http (handle_scan 10%Q RTransportError (mkApp [] [])
                                      (BRfid (JStr (s2l "ab 1234")))))).
Proof.
  apply (listener_app_accepts (mkListener 0) (w_env 10) (s2l "  ab 1234
") flask_url (s2l "ab 1234") 5 10%Q RTransportError (mkApp [] [])).
  vm_compute. left. reflexivity.
Defined.

(** ** Extras: the web routes *)

(** [assign] with a non-empty identifier and directory never overwrites a
    mapping: for a taken identifier it changes nothing and reports an error;
    otherwise it adds the new row, with the album and artist from the form
    ([''] when missing), leaving every other lookup and the queue as they
    were. *)
Theorem assign_post_no_overwrite (now : Q) (A : app_state) (r m : pystr)
    (al ar : option pystr) :
  truthy r = true -> truthy m = true ->
  let '(A', fc, _) := assign_post now A (Some r) (Some m) al ar in
  match get_mapping (db A) r with
  | Some _ => A' = A /\ fc = FError
  | None =>
      fc = FSuccess
      /\ get_mapping (db A') r
         = Some (mkRow r m (Some (form_default al)) (Some (form_default ar)) None now None)
      /\ (forall k, k <> r -> get_mapping (db A') k = get_mapping (db A) k)
      /\ rfid_queue A' = rfid_queue A
  end.
Proof.
  intros Hr Hm. unfold assign_post. rewrite Hr, Hm. cbn [andb].
  destruct (get_mapping (db A) r) as [x|] eqn:G; [split; reflexivity|].
  unfold create_mapping. rewrite G. cbn [db rfid_queue].
  split; [reflexivity|]. split; [|split; [|reflexivity]].
  - rewrite get_mapping_snoc, G. cbn [r_rfid]. rewrite pystr_eqb_refl. reflexivity.
  - intros k Hk. rewrite get_mapping_snoc. cbn [r_rfid].
    replace (pystr_eqb r k) with false by (symmetry; apply pystr_eqb_neq; congruence).
    destruct (get_mapping (db A) k); reflexivity.
Qed.

Lemma assign_post_no_overwrite_witness :
  let '(A', fc, _) := assign_post 3%Q (mkApp [] []) (Some (s2l "abc123"))
                        (Some (s2l "/home/music/x")) None (Some (s2l "Artist")) in
  match get_mapping (db (mkApp [] [])) (s2l "abc123") with
  | Some _ => A' = mkApp [] [] /\ fc = FError
  | None =>
      fc = FSuccess
      /\ get_mapping (db A') (s2l "abc123")
         = Some (mkRow (s2l "abc123") (s2l "/home/music/x") (Some (form_default None))
                       (Some (form_default (Some (s2l "Artist")))) None 3%Q None)
      /\ (forall k, k <> s2l "abc123" -> get_mapping (db A') k = get_mapping (db (mkApp [] [])) k)
      /\ rfid_queue A' = rfid_queue (mkApp [] [])
  end.
Proof.
  exact (assign_post_no_overwrite 3%Q (mkApp [] []) (s2l "abc123") (s2l "/home/music/x")
           None (Some (s2l "Artist")) eq_refl eq_refl).
Defined.

(** After [unassign] the identifier has no mapping; every other lookup and
    the queue are as before, and success is reported exactly when a mapping
    was there. *)
Theorem unassign_spec (A : app_state) (k : pystr) :
  let '(A', fc, rd) := unassign A k in
  get_mapping (db A') k = None
  /\ (forall k', k' <> k -> get_mapping (db A') k' = get_mapping (db A) k')
  /\ rfid_queue A' = rfid_queue A /\ rd = ToIndex
  /\ (fc = FSuccess <-> get_mapping (db A) k <> None).
Proof.
  unfold unassign. destruct (get_mapping (db A) k) as [m|] eqn:G; cbn [db rfid_queue].
  - rewrite get_mapping_delete, pystr_eqb_refl. split; [reflexivity|].
    split; [|split; [reflexivity|split; [reflexivity|split; [discriminate|reflexivity]]]].
    intros k' Hk. rewrite get_mapping_delete.
    replace (pystr_eqb k' k) with false by (symmetry; apply pystr_eqb_neq; exact Hk).
    reflexivity.
  - split; [exact G|]. split; [reflexivity|]. split; [reflexivity|]. split; [reflexivity|].
    split; [discriminate | intro H; exfalso; exact (H eq_refl)].
Qed.

(** [edit] changes only the album title and the artist of an existing
    mapping (to the form values, [''] when missing); its directory, cover,
    creation and play times, every other lookup and the queue stay as they
    were. A missing mapping is reported and nothing changes. *)
Theorem edit_post_spec (A : app_state) (k : pystr) (al ar : option pystr) :
  let '(A', fc, _) := edit_post A k al ar in
  match get_mapping (db A) k with
  | None => A' = A /\ fc = FError
  | Some m =>
      fc = FSuccess
      /\ get_mapping (db A') k
         = Some (mkRow k (r_music_dir m) (Some (form_default al)) (Some (form_default ar))
                       (r_cover_path m) (r_created_at m) (r_last_played m))
      /\ (forall k', k' <> k -> get_mapping (db A') k' = get_mapping (db A) k')
      /\ rfid_queue A' = rfid_queue A
  end.
Proof.
  unfold edit_post. destruct (get_mapping (db A) k) as [m|] eqn:G; [|split; reflexivity].
  cbn [db rfid_queue]. unfold update_mapping.
  destruct (get_mapping_some _ _ _ G) as [_ Hk].
  split; [reflexivity|]. split; [|split; [|reflexivity]].
  - rewrite get_mapping_map_key by reflexivity. rewrite pystr_eqb_refl, G.
    cbn [option_map]. unfold set_fields. rewrite Hk. reflexivity.
  - intros k' Hk'. rewrite get_mapping_map_key by reflexivity.
    replace (pystr_eqb k' k) with false by (symmetry; apply pystr_eqb_neq; exact Hk').
    reflexivity.
Qed.

(** Every route keeps the identifiers of the table distinct, as the primary
    key requires: no request can make a lookup ambiguous. *)
Theorem routes_keep_keys_unique (A : app_state) :
  NoDup (keys (db A)) ->
  (forall now pb body A' reply eff,
     handle_scan now pb A body = Ret (A', reply, eff) -> NoDup (keys (db A')))
  /\ (forall now r m al ar, NoDup (keys (db (fst (fst (assign_post now A r m al ar))))))
  /\ (forall param, NoDup (keys (db (fst (assign_get_pending A param)))))
  /\ (forall k al ar, NoDup (keys (db (fst (fst (edit_post A k al ar))))))
  /\ (forall k, NoDup (keys (db (fst (fst (unassign A k)))))).
Proof.
  intro H. split; [|split; [|split; [|split]]].
  - intros now pb body A' reply eff HS.
    destruct body as [| |[s|]|]; cbn [handle_scan] in HS;
      [injection HS as <- _ _; exact H | injection HS as <- _ _; exact H | | discriminate HS
      | discriminate HS].
    destruct (negb (truthy (strip s))); [injection HS as <- _ _; exact H|].
    destruct (get_mapping (db A) (strip s)).
    + unfold trigger_playback in HS. injection HS as <- _ _. cbn [db].
      unfold update_last_played. rewrite keys_map_key by reflexivity. exact H.
    + injection HS as <- _ _. exact H.
  - intros now r m al ar. unfold assign_post.
    destruct r as [r|], m as [m|]; try exact H.
    destruct (truthy r && truthy m); [|exact H].
    destruct (get_mapping (db A) r) eqn:G; [exact H|].
    unfold create_mapping. rewrite G. cbn [fst db].
    apply NoDup_keys_snoc; [exact H|]. cbn [r_rfid]. apply get_mapping_none. exact G.
  - intro param. unfold assign_get_pending.
    destruct (match param with Some p => truthy p | None => false end); [exact H|].
    destruct (rfid_queue A); exact H.
  - intros k al ar. unfold edit_post. destruct (get_mapping (db A) k); [|exact H].
    cbn [fst db]. unfold update_mapping. rewrite keys_map_key by reflexivity. exact H.
  - intro k. unfold unassign. destruct (get_mapping (db A) k); [|exact H].
    cbn [fst db]. apply NoDup_keys_filter. exact H.
Qed.

Lemma routes_keep_keys_unique_witness :
  NoDup (keys (db (fst (fst (assign_post 1%Q (mkApp [] []) (Some (s2l "abc123"))
                                (Some (s2l "/home/music/x")) None None))))).
Proof.
  exact (proj1 (proj2 (routes_keep_keys_unique (mkApp [] []) (NoDup_nil _)))
           1%Q (Some (s2l "abc123")) (Some (s2l "/home/music/x")) None None).
Defined.

(** ** Extras: the macOS playback host *)

Lemma stop_no_start io P argv : ~ In (HStartMpv argv) (snd (stop_current_playback io P)).
Proof.
  unfold stop_current_playback.
  destruct (current_process P); [destruct (h_running io); [destruct (h_exits io)|]|];
    simpl; intuition discriminate.
Qed.

Lemma valid_stripped_head d :
  is_valid_rfid (strip d) = true ->
  exists c rest, strip d = c :: rest /\ py_isalnum_char c = true.
Proof.
  intro V. apply is_valid_rfid_spec in V as [Hl [_ Ha]]. rewrite forallb_forall in Ha.
  destruct (strip d) as [|c rest] eqn:S; [simpl in Hl; unfold MIN_RFID_LENGTH in Hl; lia|].
  exists c, rest. split; [reflexivity|].
  pose proof (strip_head d c rest S) as Hh.
  apply Ha. unfold remove_spaces. apply filter_In. split; [left; reflexivity|].
  destruct (Ascii.eqb c " "%char) eqn:E; [|reflexivity].
  apply Ascii.eqb_eq in E. subst c. discriminate Hh.
Qed.

(** [play_music] answers 200, 400, 404 or 500; it answers 200 exactly when
    the request names an identifier, the path it resolves to exists, is a
    directory and holds [.mp3] files; and it starts [mpv] only then, with the
    fixed options followed by exactly those files. *)
Theorem play_music_outcomes (io : host_io) (P : player) (body : play_body) :
  let '(P', st, eff) := play_music io P body in
  (st = 200 \/ st = 400 \/ st = 404 \/ st = 500)
  /\ (st = 200 <-> exists r md, body = PObj (Some r) md /\ r <> []
        /\ h_exists io (play_path r md) = true /\ h_isdir io (play_path r md) = true
        /\ h_glob io (os_path_join (play_path r md) (s2l "*.mp3")) <> [])
  /\ (forall argv, In (HStartMpv argv) eff ->
        st = 200 /\ exists r md, body = PObj (Some r) md
        /\ argv = MPV_COMMAND :: mpv_options
                  ++ h_glob io (os_path_join (play_path r md) (s2l "*.mp3"))).
Proof.
  destruct body as [|[r|] md]; cbn [play_music].
  - split; [auto|]. split; [split; [discriminate | intros [r [md [H _]]]; discriminate H]|].
    intros argv [].
  - destruct r as [|c r]; cbn [truthy negb].
    + split; [auto|]. split; [|intros argv []].
      split; [discriminate|]. intros [r [md' [H [Hne _]]]]. injection H as <- _. congruence.
    + destruct (h_exists io (play_path (c :: r) md)) eqn:E; cbn [negb].
      2:{ split; [auto|]. split; [|intros argv []].
          split; [discriminate|]. intros [r' [md' [H [_ [He _]]]]].
          injection H as <- <-. congruence. }
      destruct (h_isdir io (play_path (c :: r) md)) eqn:D; cbn [negb].
      2:{ split; [auto|]. split; [|intros argv []].
          split; [discriminate|]. intros [r' [md' [H [_ [_ [Hd _]]]]]].
          injection H as <- <-. congruence. }
      unfold play_directory.
      pose proof (stop_no_start io P) as Hs.
      destruct (stop_current_playback io P) as [P1 e1]. cbn [snd] in Hs.
      destruct (h_glob io (os_path_join (play_path (c :: r) md) (s2l "*.mp3"))) as [|f fs] eqn:G.
      * split; [auto|]. split.
        -- split; [discriminate|]. intros [r' [md' [H [_ [_ [_ Hg]]]]]].
           injection H as <- <-. congruence.
        -- intros argv Hin. exfalso. exact (Hs argv Hin).
      * split; [auto|]. split.
        -- split; [intros _|reflexivity]. exists (c :: r), md.
           repeat split; try assumption; [discriminate|]. rewrite G. discriminate.
        -- intros argv Hin. apply in_app_or in Hin as [Hin|[Hin|[]]];
             [exfalso; exact (Hs argv Hin)|].
           injection Hin as <-. split; [reflexivity|]. exists (c :: r), md.
           split; [reflexivity|]. rewrite G. reflexivity.
  - split; [auto|]. split; [split; [discriminate | intros [r [md' [H _]]]; discriminate H]|].
    intros argv [].
Qed.

(** A request for an existing directory without [.mp3] files stops the
    music that is playing (terminating the running [mpv], killing it if it
    does not exit in time) and then fails with 500. *)
Theorem play_music_stops_on_empty_dir (io : host_io) (P : player) (r : pystr)
    (md : option pystr) :
  r <> [] -> h_exists io (play_path r md) = true -> h_isdir io (play_path r md) = true ->
  h_glob io (os_path_join (play_path r md) (s2l "*.mp3")) = [] ->
  play_music io P (PObj (Some r) md)
  = (mkPlayer (current_process P) false, 500, snd (stop_current_playback io P))
  /\ (current_process P <> None -> h_running io = true ->
      In HTerminate (snd (stop_current_playback io P))).
Proof.
  intros Hr He Hd Hg. split.
  - cbn [play_music]. destruct r as [|c r]; [congruence|]. cbn [truthy negb].
    rewrite He, Hd. cbn [negb]. unfold play_directory. rewrite Hg.
    unfold stop_current_playback.
    destruct (current_process P); [destruct (h_running io)|]; reflexivity.
  - intros Hp Hrun. unfold stop_current_playback.
    destruct (current_process P); [|congruence]. rewrite Hrun. left. reflexivity.
Qed.

Lemma play_music_stops_on_empty_dir_witness :
  let io := mkHost (fun _ => true) (fun _ => true) (fun _ => []) true false in
  play_music io (mkPlayer (Some 1%nat) true) (PObj (Some (s2l "abc123")) None)
  = (mkPlayer (Some 1%nat) false, 500, [HTerminate; HKill])
  /\ (Some 1%nat <> None -> h_running io = true -> In HTerminate [HTerminate; HKill]).
Proof.
  intro io.
  exact (play_music_stops_on_empty_dir io (mkPlayer (Some 1%nat) true) (s2l "abc123") None
           ltac:(discriminate) eq_refl eq_refl eq_refl).
Defined.

(** End to end: for an identifier the listener posts, [handle_scan] sends
    the playback host only that identifier, never the directory of the
    mapping, so [play_music] looks for the music in [MUSIC_MOUNT_PATH]/<rfid>,
    whatever directory the mapping holds. *)
Theorem scan_plays_mount_directory (L : listener) (e : env) (d : pystr) (u r : pystr) (t : Z)
    (now : Q) (pb : response) (A A' : app_state) (reply : scan_reply) (eff : list effect) :
  In (u, r, t) (posts (snd (process_scan L e d))) ->
  handle_scan now pb A (BRfid (JStr r)) = Ret (A', reply, eff) ->
  forall url r2 t2, In (url, r2, t2) (posts eff) ->
    url = macos_play_url /\ r2 = r /\ t2 = 5
    /\ play_path r2 None = s2l "/Volumes/music/" ++ r.
Proof.
  intros H HS url r2 t2 Hin.
  destruct (posted_valid L e d u r t H) as [_ [_ [-> V]]].
  destruct (valid_stripped_head d V) as [c [rest [S Hc]]].
  cbn [handle_scan] in HS. rewrite strip_idem, S in HS. cbn [truthy negb] in HS.
  destruct (get_mapping (db A) (c :: rest)).
  - unfold trigger_playback in HS. injection HS as _ _ <-.
    cbn [posts] in Hin. destruct Hin as [Hin|[]]. injection Hin as <- <- <-.
    rewrite S. split; [reflexivity|split; [reflexivity|split; [reflexivity|]]].
    cbn [play_path]. unfold os_path_join.
    replace (Ascii.eqb c slash) with false.
    + reflexivity.
    + symmetry. destruct (Ascii.eqb c slash) eqn:E; [|reflexivity].
      apply Ascii.eqb_eq in E. subst c. discriminate Hc.
  - injection HS as _ _ <-. destruct Hin.
Qed.

Lemma scan_plays_mount_directory_witness :
  macos_play_url = macos_play_url /\ s2l "ab 1234" = s2l "ab 1234" /\ 5 = 5
  /\ play_path (s2l "ab 1234") None = s2l "/Volumes/music/" ++ s2l "ab 1234".
Proof.
  apply (scan_plays_mount_directory (mkListener 0) (w_env 10) (s2l "  ab 1234
") flask_url (s2l "ab 1234") 5 10%Q (RStatus 200 None)
           (mkApp [mkRow (s2l "ab 1234") (s2l "/home/music/x") None None None 0%Q None] [])
           (mkApp [mkRow (s2l "ab 1234") (s2l "/home/music/x") None None None 0%Q (Some 10%Q)] [])
           (SRMapped (s2l "ab 1234") (s2l "/home/music/x") None None true)
           [EPost macos_play_url (s2l "ab 1234") 5]).
  - vm_compute. left. reflexivity.
  - vm_compute. reflexivity.
  - left. reflexivity.
Defined.
